(** * go-errortree: a shallow embedding of the error tree and its operations

    The Go package stores errors in [*Tree] values: a tree is a mutable
    object reached through a pointer, holding a map from keys to errors, a
    delimiter and a formatter.  A child error may itself be a [*Tree], and
    nothing prevents a tree from (transitively) containing itself, so the
    embedding works over an explicit store of trees addressed by location:
    pointer identity is location equality, and the lazy initialisation done
    by the getters is an update of the store. *)

From Stdlib Require Import DecimalString.
From stdpp Require Import base option list strings gmap sorting.

(** ** Outcomes

    A Go call either returns, or panics with a message.  Recursive functions
    that are not structurally recursive are defined with a fuel argument;
    [OutOfFuel] is the outcome of a run that was given too little of it. *)

Inductive outcome (A : Type) : Type :=
  | Ret (a : A)
  | Panic (msg : string)
  | OutOfFuel.
Arguments Ret {A} a.
Arguments Panic {A} msg.
Arguments OutOfFuel {A}.

Global Instance outcome_bind : MBind outcome := λ A B f x,
  match x with
  | Ret a => f a
  | Panic msg => Panic msg
  | OutOfFuel => OutOfFuel
  end.

Global Instance outcome_ret : MRet outcome := @Ret.

(** Reduces the binds of [outcome] without unfolding the fuelled
    recursions. *)
Ltac osimpl :=
  cbn [mbind outcome_bind mret outcome_ret] in *.

(** ** Data model *)

(** A location names one [Tree] object; [*Tree] pointers are locations. *)
Notation loc := positive.

(** A value of the Go interface type [error]: the nil interface, some error
    that is not a [*Tree] (only its message is observable), or a pointer to
    a [Tree].  An interface that wraps the nil [*Tree] pointer is not
    represented: the package never builds one ([Set] and [Add] return the nil
    interface instead).  A location outside the store stands for no Go
    value; dereferencing it panics, which keeps the operations total. *)
Inductive error : Type :=
  | ENil
  | ELeaf (msg : string)
  | ETree (p : loc).

Global Instance error_eq_dec : EqDecision error.
Proof. solve_decision. Defined.

(** The formatter stored in a tree: the package's [SimpleFormatter] or a
    caller-supplied function of the flattened map. *)
Inductive Formatter : Type :=
  | FSimple
  | FCustom (f : gmap string error → string).

(** [type Tree struct].  The zero value of the map field is the nil map
    ([None]), the zero value of the delimiter is the empty string and the zero
    value of the formatter is nil ([None]). *)
Record Tree : Type := mkTree {
  Errors : option (gmap string error);
  Delimiter : string;
  Formatter_ : option Formatter;
}.

Notation heap := (gmap loc Tree).

Definition DefaultDelimiter : string := ":".

Definition nil_deref : string :=
  "runtime error: invalid memory address or nil pointer dereference".

(** [func (t *Tree) getErrors() map[string]error] *)
Definition getErrors (h : heap) (t : loc) : outcome (gmap string error * heap) :=
  match h !! t with
  | None => Panic nil_deref
  | Some tr =>
      match Errors tr with
      | None =>
          Ret (∅, <[t := mkTree (Some ∅) (Delimiter tr) (Formatter_ tr)]> h)
      | Some errors => Ret (errors, h)
      end
  end.

(** [func (t *Tree) getDelimiter() string] *)
Definition getDelimiter (h : heap) (t : loc) : outcome (string * heap) :=
  match h !! t with
  | None => Panic nil_deref
  | Some tr =>
      if decide (Delimiter tr = "")
      then Ret (DefaultDelimiter,
                <[t := mkTree (Errors tr) DefaultDelimiter (Formatter_ tr)]> h)
      else Ret (Delimiter tr, h)
  end.

(** [func (t *Tree) getFormatter() Formatter] *)
Definition getFormatter (h : heap) (t : loc) : outcome (Formatter * heap) :=
  match h !! t with
  | None => Panic nil_deref
  | Some tr =>
      match Formatter_ tr with
      | None =>
          Ret (FSimple, <[t := mkTree (Errors tr) (Delimiter tr) (Some FSimple)]> h)
      | Some f => Ret (f, h)
      end
  end.

(** [func New() *Tree]: a new object at a location the store does not use. *)
Definition New (h : heap) : loc * heap :=
  let p := fresh (dom h) in
  (p, <[p := mkTree (Some ∅) DefaultDelimiter (Some FSimple)]> h).

(** [func GetTree(err error) (tree *Tree, isTree bool)]: the type assertion
    [err] to a tree pointer. *)
Definition GetTree (err : error) : option loc :=
  match err with
  | ETree p => Some p
  | _ => None
  end.

(** The nil interface when the pointer is nil, the tree otherwise: the Go
    idiom [if tree != nil { return tree }; return nil], which keeps a nil
    pointer from being wrapped in a non-nil interface. *)
Definition tree_or_nil (tree : option loc) : error :=
  match tree with
  | Some t => ETree t
  | None => ENil
  end.

(** [sort.Strings]: ascending in the byte-wise lexicographic order. *)
Definition sort_Strings (keys : list string) : list string :=
  merge_sort String.le keys.

(** [strings.Join(elems, sep)] *)
Definition Join (elems : list string) (sep : string) : string :=
  String.concat sep elems.

(** The verb [%d] of [fmt.Sprintf] on a length. *)
Definition Sprintf_d (n : nat) : string :=
  NilZero.string_of_uint (Nat.to_uint n).

Definition newline : string := String (Ascii.ascii_of_nat 10) "".

(** Fuel that suffices for every call of [flatten] on the store [h]: the
    recursion enters each allocated tree at most once along a path. *)
Definition enough (h : heap) : nat := S (size h).
Global Arguments enough : simpl never.

Section Operations.

(** The order in which a [for ... range] loop visits the entries of a map.
    Go leaves it unspecified; the operations take it as a parameter and the
    theorems hold for every order that enumerates the entries of the map. *)
Context (range : gmap string error → list (string * error)).

(** The [Error] method of a [*Tree] stored as a value of a map handed to a
    formatter (dynamic dispatch on the entry). *)
Context (tree_Error : loc → outcome string).

(** [func set(tree *Tree, key string, err error) *Tree] *)
Definition set (h : heap) (tree : option loc) (key : string) (err : error)
    : outcome (option loc * heap) :=
  match err with
  | ENil => Ret (tree, h)
  | _ =>
      let '(t, h) := match tree with
                     | None => New h
                     | Some t => (t, h)
                     end in
      '(errors, h) ← getErrors h t;
      Ret (Some t,
           alter (λ tr, mkTree (Some (<[key := err]> errors))
                               (Delimiter tr) (Formatter_ tr)) t h)
  end.

(** [func Set(parent error, key string, err error) error] ([Set] is a
    reserved word here, hence the underscore). *)
Definition Set_ (h : heap) (parent : error) (key : string) (err : error)
    : outcome (error * heap) :=
  let tree := GetTree parent in
  if bool_decide (parent ≠ ENil) && bool_decide (tree = None)
  then Panic "Cannot set error: not an *errortree.Tree."
  else
    '(tree, h) ← set h tree key err;
    Ret (tree_or_nil tree, h).

(** [func Add(parent error, key string, err error) error] *)
Definition Add (h : heap) (parent : error) (key : string) (err : error)
    : outcome (error * heap) :=
  let tree := GetTree parent in
  h ← match tree with
      | Some t =>
          '(errors, h) ← getErrors h t;
          match errors !! key with
          | Some _ => Panic ("Cannot add error: key " +:+ key +:+ " exists.")
          | None => Ret h
          end
      | None => Ret h
      end;
  '(tree, h) ← set h tree key err;
  Ret (tree_or_nil tree, h).

(** [func get(tree *Tree, returnAnyChild bool, key string, path ...string) error] *)
Fixpoint get (h : heap) (tree : loc) (returnAnyChild : bool) (key : string)
    (path : list string) {struct path} : outcome (error * heap) :=
  '(errors, h) ← getErrors h tree;
  match errors !! key with
  | None => Ret (ENil, h)
  | Some child =>
      match path with
      | [] => Ret (child, h)
      | path0 :: path1 =>
          match GetTree child with
          | None => if returnAnyChild then Ret (child, h) else Ret (ENil, h)
          | Some childTree =>
              '(childErr, h) ← get h childTree returnAnyChild path0 path1;
              if bool_decide (childErr = ENil) && returnAnyChild
              then Ret (child, h)
              else Ret (childErr, h)
          end
      end
  end.

(** [func Get(err error, key string, path ...string) error] *)
Definition Get (h : heap) (err : error) (key : string) (path : list string)
    : outcome (error * heap) :=
  match GetTree err with
  | None => Ret (ENil, h)
  | Some tree => get h tree false key path
  end.

(** [func GetAny(err error, key string, path ...string) error] *)
Definition GetAny (h : heap) (err : error) (key : string) (path : list string)
    : outcome (error * heap) :=
  match GetTree err with
  | None => Ret (err, h)
  | Some tree => get h tree true key path
  end.

(** The inner loop of [flatten],
    [for childKey, childErr := range sub { errorMap[key+delimiter+childKey] = childErr }]. *)
Definition rekey (key delimiter : string) (sub : list (string * error))
    (errorMap : gmap string error) : gmap string error :=
  foldl (λ acc kv, <[key +:+ delimiter +:+ kv.1 := kv.2]> acc) errorMap sub.

(** The outer loop of [flatten], [for key, err := range errors], over the
    entries still to visit; [rec] is the recursive call. *)
Fixpoint flatten_loop
    (rec : heap → loc → list string → outcome (gmap string error * heap))
    (delimiter : string) (keyPrefix : list string)
    (entries : list (string * error)) (errorMap : gmap string error)
    (h : heap) : outcome (gmap string error * heap) :=
  match entries with
  | [] => Ret (errorMap, h)
  | (key, err) :: entries =>
      match GetTree err with
      | Some childTree =>
          let childPrefix := keyPrefix ++ [key] in
          '(sub, h) ← rec h childTree childPrefix;
          flatten_loop rec delimiter keyPrefix entries
            (rekey key delimiter (range sub) errorMap) h
      | None =>
          flatten_loop rec delimiter keyPrefix entries
            (<[key := err]> errorMap) h
      end
  end.

(** [func flatten(tree *Tree, delimiter string, visited []*Tree, keyPrefix ...string) map[string]error] *)
Fixpoint flatten (fuel : nat) (h : heap) (tree : loc) (delimiter : string)
    (visited : list loc) (keyPrefix : list string)
    : outcome (gmap string error * heap) :=
  match fuel with
  | O => OutOfFuel
  | S fuel =>
      if bool_decide (tree ∈ visited) then Ret (∅, h)
      else
        let visited := visited ++ [tree] in
        '(errors, h) ← getErrors h tree;
        flatten_loop (λ h childTree childPrefix,
                        flatten fuel h childTree delimiter visited childPrefix)
          delimiter keyPrefix (range errors) ∅ h
  end.

(** [func Flatten(err error) map[string]error]; [None] is the nil map. *)
Definition Flatten (h : heap) (err : error)
    : outcome (option (gmap string error) * heap) :=
  match GetTree err with
  | None => Ret (None, h)
  | Some tree =>
      '(delimiter, h) ← getDelimiter h tree;
      '(flattened, h) ← flatten (enough h) h tree delimiter [] [];
      Ret (Some flattened, h)
  end.

(** [func Keys(err error) []string]; [None] is the nil slice. *)
Definition Keys (h : heap) (err : error)
    : outcome (option (list string) * heap) :=
  match GetTree err with
  | None => Ret (None, h)
  | Some tree =>
      '(delimiter, h) ← getDelimiter h tree;
      '(flattened, h) ← flatten (enough h) h tree delimiter [] [];
      let keys := (range flattened).*1 in
      Ret (Some (sort_Strings keys), h)
  end.

(** The method call [e.Error()] on an entry of a flattened map. *)
Definition error_Error (e : error) : outcome string :=
  match e with
  | ENil => Panic nil_deref
  | ELeaf msg => Ret msg
  | ETree p => tree_Error p
  end.

(** The loop of [SimpleFormatter] that fills [wrappedErrors]. *)
Fixpoint wrap_errors (errorMap : gmap string error) (keys : list string)
    : outcome (list string) :=
  match keys with
  | [] => Ret []
  | key :: keys =>
      msg ← error_Error (default ENil (errorMap !! key));
      wrappedErrors ← wrap_errors errorMap keys;
      Ret (("* " +:+ key +:+ ": " +:+ msg) :: wrappedErrors)
  end.

(** [func SimpleFormatter(errorMap map[string]error) string] *)
Definition SimpleFormatter (errorMap : gmap string error) : outcome string :=
  let pluralSuffix := if bool_decide (size errorMap ≠ 1) then "s" else "" in
  let keys := sort_Strings (range errorMap).*1 in
  wrappedErrors ← wrap_errors errorMap keys;
  Ret (Sprintf_d (size errorMap) +:+ " error" +:+ pluralSuffix +:+
       " occurred:" +:+ newline +:+ newline +:+ Join wrappedErrors newline).

Definition call_Formatter (f : Formatter) (errorMap : gmap string error)
    : outcome string :=
  match f with
  | FSimple => SimpleFormatter errorMap
  | FCustom f => Ret (f errorMap)
  end.

(** [func (t *Tree) Error() string] *)
Definition Tree_Error (h : heap) (t : option loc) : outcome (string * heap) :=
  match t with
  | None => Ret ("", h)
  | Some t =>
      '(formatter, h) ← getFormatter h t;
      '(delimiter, h) ← getDelimiter h t;
      '(flattened, h) ← flatten (enough h) h t delimiter [] [];
      s ← call_Formatter formatter flattened;
      Ret (s, h)
  end.

End Operations.

(** ** What the lazy getters may change

    [getErrors] and [getDelimiter] write to a field that still has its zero
    value.  [lazy_tree t t'] relates a tree to the same tree after any number
    of such writes; the formatter is never touched by them. *)

Definition lazy_tree (t t' : Tree) : Prop :=
  (Errors t' = Errors t ∨ (Errors t = None ∧ Errors t' = Some ∅)) ∧
  (Delimiter t' = Delimiter t ∨
   (Delimiter t = "" ∧ Delimiter t' = DefaultDelimiter)) ∧
  Formatter_ t' = Formatter_ t.

Definition lazy_init (h h' : heap) : Prop :=
  ∀ p, match h !! p, h' !! p with
       | Some t, Some t' => lazy_tree t t'
       | None, None => True
       | _, _ => False
       end.

(** The entries of the tree at [p] as every reader sees them: the nil map
    reads as the empty map. *)
Definition errs (h : heap) (p : loc) : option (gmap string error) :=
  (λ tr, default ∅ (Errors tr)) <$> h !! p.

(** The delimiter of the tree at [p] as [getDelimiter] reports it. *)
Definition delim (h : heap) (p : loc) : option string :=
  (λ tr, if decide (Delimiter tr = "") then DefaultDelimiter else Delimiter tr)
    <$> h !! p.

(** Every field that a getter would initialise already has a value. *)
Definition initialised (h : heap) : Prop :=
  ∀ p tr, h !! p = Some tr → Errors tr ≠ None ∧ Delimiter tr ≠ "".

(** Every tree pointer stored in the store points into the store. *)
Definition closed (h : heap) : Prop :=
  ∀ p errors k c, errs h p = Some errors → errors !! k = Some (ETree c) →
    is_Some (h !! c).

(** ** Vocabulary of the specifications *)

(** Agreement of a stateful outcome with a pure one: the same value, and a
    final store that differs from the initial one by lazy initialisation
    only. *)
Definition agrees {A} (h : heap) (x : outcome (A * heap)) (y : outcome A)
    : Prop :=
  match x, y with
  | Ret (a, h'), Ret b => a = b ∧ lazy_init h h'
  | Panic m, Panic m' => m = m'
  | OutOfFuel, OutOfFuel => True
  | _, _ => False
  end.

(** The calls of one walk that entered a tree: [visited] at the call, and
    the tree. *)
Notation trace := (list (list loc * loc)).

Section Pure.

Context (range : gmap string error → list (string * error)).

(** [flatten] only reads the entries of the trees, and its only writes are
    the lazy initialisations of [getErrors].  [flat] computes the same map
    from the entries [E] alone. *)
Fixpoint flat_loop (rec : loc → outcome (gmap string error))
    (delimiter : string) (entries : list (string * error))
    (errorMap : gmap string error) : outcome (gmap string error) :=
  match entries with
  | [] => Ret errorMap
  | (key, err) :: entries =>
      match GetTree err with
      | Some childTree =>
          sub ← rec childTree;
          flat_loop rec delimiter entries
            (rekey key delimiter (range sub) errorMap)
      | None => flat_loop rec delimiter entries (<[key := err]> errorMap)
      end
  end.

Fixpoint flat (fuel : nat) (E : loc → option (gmap string error))
    (tree : loc) (delimiter : string) (visited : list loc)
    : outcome (gmap string error) :=
  match fuel with
  | O => OutOfFuel
  | S fuel =>
      if bool_decide (tree ∈ visited) then Ret ∅
      else
        match E tree with
        | None => Panic nil_deref
        | Some errors =>
            flat_loop (λ c, flat fuel E c delimiter (visited ++ [tree]))
              delimiter (range errors) ∅
        end
  end.

Definition Flat (h : heap) (err : error)
    : outcome (option (gmap string error)) :=
  match GetTree err with
  | None => Ret None
  | Some t =>
      match delim h t with
      | None => Panic nil_deref
      | Some d => m ← flat (enough h) (errs h) t d []; Ret (Some m)
      end
  end.

(** [flatten_traced] is [flatten] with a ghost result: the list of the calls
    that got past the visited check, each recorded as the pair of [visited]
    at that moment and the tree entered, in the order of the calls. *)
Fixpoint flatten_loop_traced
    (rec : heap → loc → list string → outcome (gmap string error * heap * trace))
    (delimiter : string) (keyPrefix : list string)
    (entries : list (string * error)) (errorMap : gmap string error)
    (h : heap) (tr : trace) : outcome (gmap string error * heap * trace) :=
  match entries with
  | [] => Ret (errorMap, h, tr)
  | (key, err) :: entries =>
      match GetTree err with
      | Some childTree =>
          let childPrefix := keyPrefix ++ [key] in
          '(sub, h, tr') ← rec h childTree childPrefix;
          flatten_loop_traced rec delimiter keyPrefix entries
            (rekey key delimiter (range sub) errorMap) h (tr ++ tr')
      | None =>
          flatten_loop_traced rec delimiter keyPrefix entries
            (<[key := err]> errorMap) h tr
      end
  end.

Fixpoint flatten_traced (fuel : nat) (h : heap) (tree : loc)
    (delimiter : string) (visited : list loc) (keyPrefix : list string)
    : outcome (gmap string error * heap * trace) :=
  match fuel with
  | O => OutOfFuel
  | S fuel =>
      if bool_decide (tree ∈ visited) then Ret (∅, h, [])
      else
        let visited' := visited ++ [tree] in
        '(errors, h) ← getErrors h tree;
        flatten_loop_traced
          (λ h childTree childPrefix,
             flatten_traced fuel h childTree delimiter visited' childPrefix)
          delimiter keyPrefix (range errors) ∅ h [(visited, tree)]
  end.

End Pure.

(** ** What [flatten] returns

    [leaf_at E visited t path e]: following the keys of [path] from the tree
    [t], never entering a tree that is in [visited] or that was entered
    earlier on the way, one arrives at the entry [e], which is not a tree. *)

Inductive leaf_at (E : loc → option (gmap string error))
    : list loc → loc → list string → error → Prop :=
  | leaf_here v t errors k e :
      t ∉ v → E t = Some errors → errors !! k = Some e → GetTree e = None →
      leaf_at E v t [k] e
  | leaf_below v t errors k c p e :
      t ∉ v → E t = Some errors → errors !! k = Some (ETree c) →
      leaf_at E (v ++ [t]) c p e →
      leaf_at E v t (k :: p) e.

(** The full key of a path: its keys joined by the delimiter. *)
Definition join (d : string) (path : list string) : string := Join path d.

(** What the entry [key ↦ err] of a tree contributes to its flattened
    map. *)
Definition contrib (E : loc → option (gmap string error)) (d : string)
    (v' : list loc) (key : string) (err : error) (K : string) (e : error)
    : Prop :=
  (GetTree err = None ∧ K = key ∧ e = err) ∨
  (∃ c p, err = ETree c ∧ leaf_at E v' c p e ∧ K = key +:+ d +:+ join d p).

(** The line of one entry. *)
Definition entry_line (msgs : gmap string string) (key : string) : string :=
  "* " +:+ key +:+ ": " +:+ default "" (msgs !! key).

(** [resolves E t key path v rest]: following [key] and then a prefix of
    [path] from the tree [t] leads to the value [v], with [rest] the part of
    the path that remains. *)
Inductive resolves (E : loc → option (gmap string error))
    : loc → string → list string → error → list string → Prop :=
  | resolves_here t errors key path v :
      E t = Some errors → errors !! key = Some v →
      resolves E t key path v path
  | resolves_step t errors key c path0 path1 v rest :
      E t = Some errors → errors !! key = Some (ETree c) →
      resolves E c path0 path1 v rest →
      resolves E t key (path0 :: path1) v rest.

(** The walk cannot go on from the value [v] with the key [next]: [v] is a
    leaf, or it is a tree that has no entry for [next]. *)
Definition stuck (E : loc → option (gmap string error)) (v : error)
    (next : string) : Prop :=
  (∃ msg, v = ELeaf msg) ∨
  (∃ c errors, v = ETree c ∧ E c = Some errors ∧ errors !! next = None).

(** No delimiter field differs between the two stores. *)
Definition same_delimiters (h h' : heap) : Prop :=
  ∀ p, Delimiter <$> h' !! p = Delimiter <$> h !! p.

(** The message of the panic of [Set]. *)
Definition not_a_tree : string := "Cannot set error: not an *errortree.Tree.".

(** Dropping the ghost result. *)
Definition erase (r : outcome (gmap string error * heap * trace))
    : outcome (gmap string error * heap) :=
  mbind (M := outcome)
    (λ x : gmap string error * heap * trace, Ret (x.1.1, x.1.2)) r.

(** What holds of every recorded entry of a call made with [visited = v]:
    the tree entered is not among the trees its record lists, the record
    extends [v], and it has no duplicates if [v] has none. *)
Definition on_path (v : list loc) (entry : list loc * loc) : Prop :=
  (snd entry ∉ fst entry) ∧ (∃ w, fst entry = v ++ w) ∧
  (NoDup v → NoDup (fst entry)).

(** The trees held by the entries of a map, in the order of the loop. *)
Definition children (entries : list (string * error)) : list loc :=
  omap (λ kv, GetTree kv.2) entries.

(** The store [h] with the delimiter field of every tree overwritten. *)
Definition with_delimiters (d : string) (h : heap) : heap :=
  (λ tr, mkTree (Errors tr) d (Formatter_ tr)) <$> h.

(** ** Stores of the package's tests, and a few more *)

(** [tree := &Tree{Delimiter: ".", Errors: {"a": test0}}; tree.Errors["b"] = tree] *)
Definition h_self : heap :=
  {[ 1%positive :=
       mkTree (Some {[ "a" := ELeaf "test0"; "b" := ETree 1 ]}) "." None ]}.

(** [tree] holds ["a"] and the child ["b"], whose entry ["c"] is [tree]. *)
Definition h_mutual : heap :=
  {[ 1%positive :=
       mkTree (Some {[ "a" := ELeaf "test0"; "b" := ETree 2 ]}) "." None;
     2%positive := mkTree (Some {[ "c" := ETree 1 ]}) "." None ]}.

(** The multi-level tree of [TestFlatten]: every nested tree carries a
    delimiter of its own. *)
Definition h_nested : heap :=
  {[ 1%positive :=
       mkTree (Some {[ "a" := ELeaf "test0"; "b" := ETree 2; "c" := ETree 3 ]})
         "." None;
     2%positive :=
       mkTree (Some {[ "ba" := ELeaf "test1"; "bb" := ELeaf "test2" ]}) ":" None;
     3%positive :=
       mkTree (Some {[ "ca" := ETree 4; "cb" := ELeaf "test5" ]}) "!" None;
     4%positive :=
       mkTree (Some {[ "caa" := ELeaf "test3"; "cab" := ELeaf "test4" ]})
         "-" None ]}.

(** The store of [TestGet] and [TestGetAny]: the child under ["c"] is a tree
    whose delimiter and formatter were left at their zero values. *)
Definition h_get : heap :=
  {[ 1%positive :=
       mkTree (Some {[ "a" := ELeaf "test0"; "c" := ETree 2 ]}) "." None;
     2%positive := mkTree (Some {[ "a" := ELeaf "test1" ]}) "" None ]}.

(** A tree left at its zero value, as in [tree = &Tree{}] of [TestNew]. *)
Definition h_zero : heap := {[ 1%positive := mkTree None "" None ]}.

(** A leaf directly under the key ["a:b"], and a subtree under ["a"] holding
    a leaf under ["b"]; the delimiter is [":"]. *)
Definition h_collide : heap :=
  {[ 1%positive :=
       mkTree (Some {[ "a:b" := ELeaf "direct"; "a" := ETree 2 ]}) ":" None;
     2%positive := mkTree (Some {[ "b" := ELeaf "nested" ]}) ":" None ]}.


(** A child shared by two keys: [child := &Tree{...}; tree.Errors["x"] = child;
    tree.Errors["y"] = child]. *)
Definition h_shared : heap :=
  {[ 1%positive := mkTree (Some {[ "x" := ETree 2; "y" := ETree 2 ]}) "." None;
     2%positive := mkTree (Some {[ "l" := ELeaf "e" ]}) "." None ]}.

(** ** The remaining methods of [Tree] *)

(** [func (t *Tree) ErrorOrNil() error].  It reads the field [t.Errors]
    itself, not through [getErrors], so it writes nothing; the length of the
    nil map is zero. *)
Definition ErrorOrNil (h : heap) (t : option loc) : outcome error :=
  match t with
  | None => Ret ENil
  | Some t =>
      match h !! t with
      | None => Panic nil_deref
      | Some tr =>
          if bool_decide (size (default ∅ (Errors tr)) = 0) then Ret ENil
          else Ret (ETree t)
      end
  end.

(** The message of an index that is outside its slice. *)
Definition index_out_of_range : string := "runtime error: index out of range".

(** The loop [for i, key := range keys { wrappedErrors[i] = errors[key] }]
    of [WrappedErrors], from the index [i] on. *)
Fixpoint fill_wrapped (errors : gmap string error) (i : nat)
    (keys : list string) (wrappedErrors : list error) : outcome (list error) :=
  match keys with
  | [] => Ret wrappedErrors
  | key :: keys =>
      if bool_decide (i < length wrappedErrors)
      then fill_wrapped errors (S i) keys
             (<[i := default ENil (errors !! key)]> wrappedErrors)
      else Panic index_out_of_range
  end.

(** [func (t *Tree) WrappedErrors() []error] *)
Definition WrappedErrors
    (range : gmap string error → list (string * error))
    (h : heap) (t : loc) : outcome (list error * heap) :=
  '(errors, h) ← getErrors h t;
  let wrappedErrors := replicate (size errors) ENil in
  let keys := sort_Strings (range errors).*1 in
  wrappedErrors ← fill_wrapped errors 0 keys wrappedErrors;
  Ret (wrappedErrors, h).

(** The store after [errors[key] = err] on the map of the tree at [p]. *)
Definition store_entry (h : heap) (p : loc) (key : string) (err : error)
    : heap :=
  alter (λ tr, mkTree (Some (<[key := err]> (default ∅ (Errors tr))))
                      (Delimiter tr) (Formatter_ tr)) p h.

(** No entry of a tree of the store holds the nil error. *)
Definition no_nil (h : heap) : Prop :=
  ∀ p errors k, errs h p = Some errors → errors !! k ≠ Some ENil.

(** A tree whose only entry is a tree without entries. *)
Definition h_hollow : heap :=
  {[ 1%positive := mkTree (Some {[ "sub" := ETree 2 ]}) ":" None;
     2%positive := mkTree (Some ∅) ":" None ]}.

(** ** The configuration validation of the package's example

    [example_config_validation_test.go] validates a configuration with [Add].
    The two checks that leave the program are parameters:
    [SplitHostPort_fails s] tells whether [net.SplitHostPort(s)] returns an
    error, and [Stat s] is [None] when [os.Stat(s)] returns an error and
    otherwise tells whether the file is a directory. *)

Record NetworkConfiguration : Type := mkNetworkConfiguration {
  ListenAddress : string;
  MaxClients : N;
}.

Record StorageConfiguration : Type := mkStorageConfiguration {
  DataDirectory : string;
}.

Record Configuration : Type := mkConfiguration {
  Network : NetworkConfiguration;
  Storage : StorageConfiguration;
}.

(** [var ErrOptionMissing = errors.New("Configuration option is missing")] *)
Definition ErrOptionMissing : error := ELeaf "Configuration option is missing".

Section Validation.

Context (SplitHostPort_fails : string → bool).
Context (Stat : string → option bool).

(** [func (c *NetworkConfiguration) Validate() (err error)] *)
Definition NetworkConfiguration_Validate (h : heap) (c : NetworkConfiguration)
    : outcome (error * heap) :=
  let err := ENil in
  '(err, h) ←
    (if bool_decide (ListenAddress c = "")
     then Add h err "ListenAddress" ErrOptionMissing
     else if SplitHostPort_fails (ListenAddress c)
     then Add h err "ListenAddress" (ELeaf "Must be in host:port format")
     else Ret (err, h));
  if bool_decide (MaxClients c < 1)%N
  then Add h err "MaxClients" (ELeaf "Must be at least 1")
  else Ret (err, h).

(** [func (c *StorageConfiguration) Validate() (err error)] *)
Definition StorageConfiguration_Validate (h : heap) (c : StorageConfiguration)
    : outcome (error * heap) :=
  let err := ENil in
  if bool_decide (DataDirectory c = "")
  then Add h err "DataDirectory" ErrOptionMissing
  else
    match Stat (DataDirectory c) with
    | None => Add h err "DataDirectory" (ELeaf "Directory does not exist")
    | Some isDir =>
        if negb isDir
        then Add h err "DataDirectory" (ELeaf "Not a directory")
        else Ret (err, h)
    end.

(** [func (c *Configuration) Validate() (err error)] *)
Definition Configuration_Validate (h : heap) (c : Configuration)
    : outcome (error * heap) :=
  let err := ENil in
  '(networkErr, h) ← NetworkConfiguration_Validate h (Network c);
  '(err, h) ← Add h err "Network" networkErr;
  '(storageErr, h) ← StorageConfiguration_Validate h (Storage c);
  Add h err "Storage" storageErr.

(** The configurations that pass every check. *)
Definition network_valid (c : NetworkConfiguration) : Prop :=
  ListenAddress c ≠ "" ∧ SplitHostPort_fails (ListenAddress c) = false ∧
  (1 ≤ MaxClients c)%N.

Definition storage_valid (c : StorageConfiguration) : Prop :=
  DataDirectory c ≠ "" ∧ Stat (DataDirectory c) = Some true.

End Validation.

(** * Properties *)

(** ** The embedding on the package's tests

    The calls of the tests and of the documentation examples, evaluated with
    the map order of the library. *)

(** [TestFlatten], multi-level tree. *)
Example test_Flatten_nested :
  Flatten map_to_list h_nested (ETree 1) =
    Ret (Some {[ "a" := ELeaf "test0"; "b.ba" := ELeaf "test1";
                 "b.bb" := ELeaf "test2"; "c.ca.caa" := ELeaf "test3";
                 "c.ca.cab" := ELeaf "test4"; "c.cb" := ELeaf "test5" ]},
         h_nested) ∧
  Flatten map_to_list h_nested (ELeaf "test") = Ret (None, h_nested).
Proof. split; by vm_compute. Qed.

(** [TestGet]. *)
Example test_Get :
  Get h_get (ELeaf "test") "test" [] = Ret (ENil, h_get) ∧
  Get h_get (ETree 1) "b" [] = Ret (ENil, h_get) ∧
  Get h_get (ETree 1) "a" [] = Ret (ELeaf "test0", h_get) ∧
  Get h_get (ETree 1) "c" ["b"] = Ret (ENil, h_get) ∧
  Get h_get (ETree 1) "c" ["a"] = Ret (ELeaf "test1", h_get) ∧
  Get h_get (ETree 1) "a" ["b"] = Ret (ENil, h_get).
Proof. repeat split; by vm_compute. Qed.

(** [TestGetAny]. *)
Example test_GetAny :
  GetAny h_get (ELeaf "test") "test" [] = Ret (ELeaf "test", h_get) ∧
  GetAny h_get (ETree 1) "b" [] = Ret (ENil, h_get) ∧
  GetAny h_get (ETree 1) "a" [] = Ret (ELeaf "test0", h_get) ∧
  GetAny h_get (ETree 1) "c" ["b"] = Ret (ETree 2, h_get) ∧
  GetAny h_get (ETree 1) "c" ["a"] = Ret (ELeaf "test1", h_get) ∧
  GetAny h_get (ETree 1) "a" ["b"] = Ret (ELeaf "test0", h_get).
Proof. repeat split; by vm_compute. Qed.

(** [TestSet]: from nil, the no-op with a nil error, the second key, and the
    panic on a parent that is not a tree. *)
Example test_Set :
  Set_ ∅ ENil "a" (ELeaf "test") =
    Ret (ETree 1,
         {[ 1%positive :=
              mkTree (Some {[ "a" := ELeaf "test" ]}) ":" (Some FSimple) ]}) ∧
  Set_ {[ 1%positive :=
            mkTree (Some {[ "a" := ELeaf "test" ]}) ":" (Some FSimple) ]}
       (ETree 1) "b" ENil =
    Ret (ETree 1,
         {[ 1%positive :=
              mkTree (Some {[ "a" := ELeaf "test" ]}) ":" (Some FSimple) ]}) ∧
  Set_ {[ 1%positive :=
            mkTree (Some {[ "a" := ELeaf "test" ]}) ":" (Some FSimple) ]}
       (ETree 1) "b" (ELeaf "test2") =
    Ret (ETree 1,
         {[ 1%positive :=
              mkTree (Some {[ "a" := ELeaf "test"; "b" := ELeaf "test2" ]})
                ":" (Some FSimple) ]}) ∧
  Set_ ∅ (ELeaf "test") "a" (ELeaf "test0") =
    Panic "Cannot set error: not an *errortree.Tree.".
Proof. repeat split; by vm_compute. Qed.

(** [TestAdd]: from nil, and the panic on a key that exists. *)
Example test_Add :
  Add ∅ ENil "a" (ELeaf "test") =
    Ret (ETree 1,
         {[ 1%positive :=
              mkTree (Some {[ "a" := ELeaf "test" ]}) ":" (Some FSimple) ]}) ∧
  Add {[ 1%positive :=
           mkTree (Some {[ "a" := ELeaf "test" ]}) ":" (Some FSimple) ]}
      (ETree 1) "a" (ELeaf "test0") =
    Panic "Cannot add error: key a exists.".
Proof. split; by vm_compute. Qed.

(** [ExampleAdd_nested]: a child with two errors is added to a new tree,
    then a second top-level error; the message lists the three leaves. *)
Example test_Add_nested :
  ('(childError, h) ← Add ∅ ENil "test0" (ELeaf "child error");
   '(childError, h) ← Add h childError "test1" (ELeaf "another child error");
   '(err, h) ← Add h ENil "child" childError;
   '(err, h) ← Add h err "second" (ELeaf "top-level error");
   '(msg, _) ← Tree_Error map_to_list (λ _, OutOfFuel) h (GetTree err);
   Ret msg) =
  Ret ("3 errors occurred:" +:+ newline +:+ newline +:+
       "* child:test0: child error" +:+ newline +:+
       "* child:test1: another child error" +:+ newline +:+
       "* second: top-level error").
Proof. by vm_compute. Qed.

Lemma lazy_tree_refl t : lazy_tree t t.
Proof. repeat split; auto. Qed.

Lemma lazy_tree_trans t1 t2 t3 :
  lazy_tree t1 t2 → lazy_tree t2 t3 → lazy_tree t1 t3.
Proof.
  unfold lazy_tree. intros (He1 & Hd1 & Hf1) (He2 & Hd2 & Hf2).
  split; [|split]; [| |congruence].
  - destruct He1 as [He1|[He1 He1']], He2 as [He2|[He2 He2']].
    + left. congruence.
    + right. split; congruence.
    + right. split; congruence.
    + congruence.
  - destruct Hd1 as [Hd1|[Hd1 Hd1']], Hd2 as [Hd2|[Hd2 Hd2']].
    + left. congruence.
    + right. split; congruence.
    + right. split; congruence.
    + rewrite Hd1' in Hd2. discriminate.
Qed.

Global Instance lazy_init_preorder : PreOrder lazy_init.
Proof.
  split.
  - intros h p. destruct (h !! p); auto using lazy_tree_refl.
  - intros h1 h2 h3 H12 H23 p. specialize (H12 p). specialize (H23 p).
    destruct (h1 !! p), (h2 !! p), (h3 !! p); try done.
    eauto using lazy_tree_trans.
Qed.

Lemma lazy_init_insert h p t t' :
  h !! p = Some t → lazy_tree t t' → lazy_init h (<[p := t']> h).
Proof.
  intros Hp Ht q. destruct (decide (p = q)) as [->|Hne].
  - by rewrite lookup_insert_eq, Hp.
  - rewrite lookup_insert_ne by done. destruct (h !! q); auto using lazy_tree_refl.
Qed.

Lemma lazy_init_errs h h' p : lazy_init h h' → errs h' p = errs h p.
Proof.
  intros H. specialize (H p). unfold errs.
  destruct (h !! p) as [t|], (h' !! p) as [t'|]; try done. simpl. f_equal.
  destruct H as ([->|[-> ->]] & _); done.
Qed.


Lemma lazy_init_lookup h h' p :
  lazy_init h h' → is_Some (h' !! p) ↔ is_Some (h !! p).
Proof.
  intros H. specialize (H p).
  destruct (h !! p), (h' !! p); try done; split; eauto.
  all: intros [? [=]].
Qed.

Lemma lazy_init_dom h h' : lazy_init h h' → dom h' = dom h.
Proof.
  intros H. apply set_eq. intros p.
  rewrite !elem_of_dom. by apply lazy_init_lookup.
Qed.

Lemma lazy_init_size h h' : lazy_init h h' → size h' = size h.
Proof.
  intros H. rewrite <- !size_dom. f_equal. by apply lazy_init_dom.
Qed.

Lemma lazy_init_initialised h h' : initialised h → lazy_init h h' → h' = h.
Proof.
  intros Hi H. apply map_eq. intros p. specialize (H p).
  destruct (h !! p) as [t|] eqn:Hp, (h' !! p) as [t'|]; try done.
  destruct (Hi _ _ Hp) as [He Hd].
  destruct H as ([He'|[? _]] & [Hd'|[? _]] & Hf); try done.
  destruct t, t'; simpl in *. congruence.
Qed.

(** The getters, in terms of what they read and what they may write. *)
Lemma getErrors_spec h t :
  match getErrors h t with
  | Ret (errors, h') => errs h t = Some errors ∧ lazy_init h h'
  | Panic msg => h !! t = None ∧ msg = nil_deref
  | OutOfFuel => False
  end.
Proof.
  unfold getErrors, errs. destruct (h !! t) as [tr|] eqn:Ht; [|done].
  destruct (Errors tr) as [errors|] eqn:He; simpl; rewrite ?He; simpl.
  - done.
  - split; [done|]. eapply lazy_init_insert; [done|].
    repeat split; simpl; auto.
Qed.

Lemma getDelimiter_spec h t :
  match getDelimiter h t with
  | Ret (d, h') => delim h t = Some d ∧ lazy_init h h'
  | Panic msg => h !! t = None ∧ msg = nil_deref
  | OutOfFuel => False
  end.
Proof.
  unfold getDelimiter, delim. destruct (h !! t) as [tr|] eqn:Ht; [|done].
  simpl. destruct (decide (Delimiter tr = "")) as [Hd|Hd].
  - split; [done|]. eapply lazy_init_insert; [done|].
    repeat split; simpl; auto.
  - done.
Qed.

(** ** The result of [flatten] as a function of what it reads

    [flatten] only reads the entries of the trees, and its only writes are
    the lazy initialisations of [getErrors].  [flat] computes the same map
    from the entries [E] alone; [flatten_flat] below states that the two
    agree, which lets the properties of the result be proved without the
    store. *)

Section Flat.

Context (range : gmap string error → list (string * error)).

Lemma flat_loop_ext rec rec' d entries acc :
  (∀ c, rec c = rec' c) →
  flat_loop range rec d entries acc = flat_loop range rec' d entries acc.
Proof.
  intros Hrec. revert acc.
  induction entries as [|[key err] entries IH]; intros acc; simpl; [done|].
  destruct (GetTree err) as [c|]; [|done]. rewrite Hrec.
  destruct (rec' c); simpl; auto.
Qed.

Lemma flat_ext fuel E E' t d v :
  (∀ p, E p = E' p) → flat range fuel E t d v = flat range fuel E' t d v.
Proof.
  intros HE. revert t v. induction fuel as [|fuel IH]; intros t v; simpl; [done|].
  case_bool_decide; [done|]. rewrite HE. destruct (E' t); [|done].
  apply flat_loop_ext. auto.
Qed.

Lemma flatten_loop_flat_loop rec rec' d kp entries acc h0 h :
  lazy_init h0 h →
  (∀ h c kp', lazy_init h0 h → agrees h (rec h c kp') (rec' c)) →
  agrees h0 (flatten_loop range rec d kp entries acc h)
    (flat_loop range rec' d entries acc).
Proof.
  intros Hh Hrec. revert acc h Hh.
  induction entries as [|[key err] entries IH]; intros acc h Hh; simpl.
  - done.
  - destruct (GetTree err) as [c|]; [|by apply IH].
    specialize (Hrec h c (kp ++ [key]) Hh). unfold agrees in Hrec.
    destruct (rec h c (kp ++ [key])) as [[sub h']| |], (rec' c) as [sub'| |];
      simpl; try done.
    destruct Hrec as [-> Hh']. apply IH. by etrans.
Qed.

Lemma flatten_flat fuel h t d v kp :
  agrees h (flatten range fuel h t d v kp) (flat range fuel (errs h) t d v).
Proof.
  revert h t v kp. induction fuel as [|fuel IH]; intros h t v kp; simpl; [done|].
  case_bool_decide; [done|].
  pose proof (getErrors_spec h t) as Hg.
  destruct (getErrors h t) as [[errors h1]| |]; simpl.
  - destruct Hg as [-> Hh1]. apply flatten_loop_flat_loop; [done|].
    intros h2 c kp' Hh2.
    rewrite <- (flat_ext fuel (errs h2) (errs h)) by
      (intros p; by apply lazy_init_errs).
    apply IH.
  - destruct Hg as [Hn ->]. unfold errs. by rewrite Hn.
  - done.
Qed.

End Flat.

(** ** Termination of [flatten]

    Every recursive call adds an allocated tree that was not yet on the path
    to [visited], so the number of allocated trees outside [visited] bounds
    the depth of the recursion. *)

Section Termination.

Context (range : gmap string error → list (string * error)).

Lemma flat_loop_fuel rec d entries acc :
  (∀ c, rec c ≠ OutOfFuel) → flat_loop range rec d entries acc ≠ OutOfFuel.
Proof.
  intros Hrec. revert acc.
  induction entries as [|[key err] entries IH]; intros acc; simpl; [done|].
  destruct (GetTree err) as [c|]; [|done].
  specialize (Hrec c). destruct (rec c); simpl; auto.
Qed.

Lemma flat_terminates h fuel t d v :
  size (dom h ∖ list_to_set v) < fuel →
  flat range fuel (errs h) t d v ≠ OutOfFuel.
Proof.
  revert t v. induction fuel as [|fuel IH]; intros t v Hsz; simpl; [lia|].
  case_bool_decide as Hv; [done|].
  destruct (errs h t) as [errors|] eqn:He; [|done].
  apply flat_loop_fuel. intros c. apply IH.
  assert (t ∈ dom h) as Hdom.
  { apply elem_of_dom. unfold errs in He. destruct (h !! t); [eauto|done]. }
  assert (dom h ∖ list_to_set (v ++ [t]) ⊂ dom h ∖ list_to_set v) as Hsub.
  { split.
    - intros x. rewrite !elem_of_difference, !elem_of_list_to_set, elem_of_app.
      naive_solver.
    - intros Hincl. specialize (Hincl t).
      rewrite !elem_of_difference, !elem_of_list_to_set, elem_of_app in Hincl.
      destruct Hincl as [_ Hn]; [done|]. apply Hn. right. by apply list_elem_of_singleton. }
  apply subset_size in Hsub. lia.
Qed.

Lemma flat_loop_mono rec rec' d entries acc :
  (∀ c, rec c ≠ OutOfFuel → rec' c = rec c) →
  flat_loop range rec d entries acc ≠ OutOfFuel →
  flat_loop range rec' d entries acc = flat_loop range rec d entries acc.
Proof.
  intros Hrec. revert acc.
  induction entries as [|[key err] entries IH]; intros acc; simpl; [done|].
  destruct (GetTree err) as [c|]; [|by apply IH].
  specialize (Hrec c). destruct (rec c) as [sub| |] eqn:Hc; simpl.
  - rewrite Hrec by done. simpl. apply IH.
  - rewrite Hrec by done. done.
  - done.
Qed.

Lemma flat_fuel_S fuel E t d v :
  flat range fuel E t d v ≠ OutOfFuel →
  flat range (S fuel) E t d v = flat range fuel E t d v.
Proof.
  revert t v. induction fuel as [|fuel IH]; intros t v; [done|].
  intros Hne. change (flat range (S (S fuel)) E t d v) with
    (if bool_decide (t ∈ v) then Ret ∅ else
       match E t with
       | None => Panic nil_deref
       | Some errors =>
           flat_loop range (λ c, flat range (S fuel) E c d (v ++ [t]))
             d (range errors) ∅
       end).
  simpl in *. case_bool_decide; [done|]. destruct (E t); [|done].
  apply flat_loop_mono; [|done]. intros c. apply IH.
Qed.

Lemma flat_fuel_le fuel fuel' E t d v :
  fuel ≤ fuel' → flat range fuel E t d v ≠ OutOfFuel →
  flat range fuel' E t d v = flat range fuel E t d v.
Proof.
  induction 1 as [|fuel' Hle IH]; [done|]. intros Hne.
  rewrite flat_fuel_S; rewrite IH; done.
Qed.

(** [enough h] suffices for a call from the top, and any larger amount of
    fuel gives the same result. *)
Lemma flat_enough h fuel t d :
  enough h ≤ fuel →
  flat range fuel (errs h) t d [] = flat range (enough h) (errs h) t d [] ∧
  flat range (enough h) (errs h) t d [] ≠ OutOfFuel.
Proof.
  intros Hle.
  assert (flat range (enough h) (errs h) t d [] ≠ OutOfFuel) as Hne.
  { apply flat_terminates. unfold enough. rewrite <- size_dom.
    assert (size (dom h ∖ list_to_set []) ≤ size (dom h)); [|lia].
    apply subseteq_size. set_solver. }
  split; [|done]. by apply flat_fuel_le.
Qed.

End Termination.

Lemma leaf_at_nonempty E v t p e : leaf_at E v t p e → p ≠ [].
Proof. by destruct 1. Qed.

Lemma join_cons d k p : p ≠ [] → join d (k :: p) = k +:+ d +:+ join d p.
Proof. by destruct p. Qed.

Lemma leaf_at_ext E E' v t p e :
  (∀ q, E q = E' q) → leaf_at E v t p e → leaf_at E' v t p e.
Proof.
  intros HE. induction 1 as [v t errors k e Hv Ht Hk He
                            |v t errors k c p e Hv Ht Hk _ IH].
  - eapply leaf_here; eauto. by rewrite <- HE.
  - eapply leaf_below; eauto. by rewrite <- HE.
Qed.

Section Characterisation.

Context (range : gmap string error → list (string * error)).
Hypothesis range_perm : ∀ m, range m ≡ₚ map_to_list m.

Lemma range_elem m k e : (k, e) ∈ range m ↔ m !! k = Some e.
Proof. by rewrite range_perm, elem_of_map_to_list. Qed.

Lemma range_NoDup m : NoDup (range m).*1.
Proof. rewrite range_perm. apply NoDup_fst_map_to_list. Qed.

Lemma range_keys m k : k ∈ (range m).*1 ↔ is_Some (m !! k).
Proof.
  rewrite list_elem_of_fmap. split.
  - intros ([k' e] & -> & Hin). apply range_elem in Hin. eauto.
  - intros [e He]. exists (k, e). split; [done|]. by apply range_elem.
Qed.

Lemma range_length m : length (range m) = size m.
Proof. by rewrite range_perm, length_map_to_list. Qed.

Lemma rekey_lookup key d sub acc K e :
  rekey key d sub acc !! K = Some e →
  acc !! K = Some e ∨ ∃ ck, (ck, e) ∈ sub ∧ K = key +:+ d +:+ ck.
Proof.
  unfold rekey. revert acc.
  induction sub as [|[ck ce] sub IH]; intros acc; simpl; [auto|].
  intros H. apply IH in H as [H|(ck' & Hin & ->)].
  - destruct (decide (key +:+ d +:+ ck = K)) as [<-|Hne].
    + rewrite lookup_insert_eq in H. injection H as ->.
      right. exists ck. split; [left|done].
    + rewrite lookup_insert_ne in H by done. auto.
  - right. exists ck'. split; [by right|done].
Qed.

Lemma rekey_keeps key d sub acc K :
  is_Some (acc !! K) → is_Some (rekey key d sub acc !! K).
Proof.
  unfold rekey. revert acc.
  induction sub as [|[ck ce] sub IH]; intros acc; simpl; [auto|].
  intros H. apply IH. rewrite lookup_insert_is_Some.
  destruct (decide (key +:+ d +:+ ck = K)); auto.
Qed.

Lemma rekey_adds key d sub acc ck :
  ck ∈ sub.*1 → is_Some (rekey key d sub acc !! (key +:+ d +:+ ck)).
Proof.
  unfold rekey. revert acc.
  induction sub as [|[ck' ce] sub IH]; intros acc; simpl.
  - by intros ?%elem_of_nil.
  - intros [->|Hin]%elem_of_cons; [|by apply IH].
    apply (rekey_keeps key d sub). rewrite lookup_insert_eq. eauto.
Qed.

Section Loop.

Context (E : loc → option (gmap string error)) (d : string) (v' : list loc).
Context (rec : loc → outcome (gmap string error)).

Hypothesis rec_spec : ∀ c sub, rec c = Ret sub →
  (∀ ck e, sub !! ck = Some e → ∃ p, leaf_at E v' c p e ∧ ck = join d p) ∧
  (∀ p e, leaf_at E v' c p e → is_Some (sub !! join d p)).

Lemma flat_loop_spec entries acc m :
  flat_loop range rec d entries acc = Ret m →
  (∀ K e, m !! K = Some e →
     acc !! K = Some e ∨
     ∃ key err, (key, err) ∈ entries ∧ contrib E d v' key err K e) ∧
  (∀ K, is_Some (acc !! K) → is_Some (m !! K)) ∧
  (∀ key err K e, (key, err) ∈ entries → contrib E d v' key err K e →
     is_Some (m !! K)).
Proof.
  revert acc. induction entries as [|[key err] entries IH]; intros acc; simpl.
  - intros [= ->]. split; [auto|]. split; [auto|].
    by intros ???? ?%elem_of_nil.
  - destruct (GetTree err) as [c|] eqn:Herr.
    + destruct err as [| |c']; try done. injection Herr as ->.
      destruct (rec c) as [sub| |] eqn:Hc; simpl; try done.
      destruct (rec_spec _ _ Hc) as [Hsound Hcompl].
      intros (IH1 & IH2 & IH3)%IH. split; [|split].
      * intros K e [Hacc|(key' & err' & Hin & Hcon)]%IH1.
        -- apply rekey_lookup in Hacc as [Hacc|(ck & Hin & ->)]; [auto|].
           right. exists key, (ETree c). split; [left|].
           apply range_elem in Hin. apply Hsound in Hin as (p & Hp & ->).
           right. eauto.
        -- right. exists key', err'. split; [by right|done].
      * intros K HK. apply IH2. by apply rekey_keeps.
      * intros key' err' K e [[= -> ->]|Hin]%elem_of_cons Hcon;
          [|by eapply IH3].
        destruct Hcon as [([=] & _)|(c' & p & [= <-] & Hp & ->)].
        apply IH2, rekey_adds, range_keys. by eapply Hcompl.
    + intros (IH1 & IH2 & IH3)%IH. split; [|split].
      * intros K e [Hacc|(key' & err' & Hin & Hcon)]%IH1.
        -- destruct (decide (key = K)) as [<-|Hne].
           ++ rewrite lookup_insert_eq in Hacc. injection Hacc as <-.
              right. exists key, err. split; [left|]. by left.
           ++ rewrite lookup_insert_ne in Hacc by done. auto.
        -- right. exists key', err'. split; [by right|done].
      * intros K HK. apply IH2. rewrite lookup_insert_is_Some.
        destruct (decide (key = K)); auto.
      * intros key' err' K e [[= -> ->]|Hin]%elem_of_cons Hcon;
          [|by eapply IH3].
        destruct Hcon as [(_ & -> & ->)|(c' & p & -> & _)]; [|done].
        apply IH2. rewrite lookup_insert_eq. eauto.
Qed.

End Loop.

(** The flattened map holds exactly the full keys of the leaves that can be
    reached without entering a tree twice along a path, and every value in
    it is such a leaf. *)
Lemma flat_spec fuel E t d v m :
  flat range fuel E t d v = Ret m →
  (∀ K e, m !! K = Some e → ∃ p, leaf_at E v t p e ∧ K = join d p) ∧
  (∀ p e, leaf_at E v t p e → is_Some (m !! join d p)).
Proof.
  revert t v m. induction fuel as [|fuel IH]; intros t v m; simpl; [done|].
  case_bool_decide as Hv.
  - intros [= <-]. split; [by intros ?? ?%lookup_empty_Some|].
    intros p e Hp. by destruct Hp.
  - destruct (E t) as [errors|] eqn:Ht; [|done].
    intros (H1 & _ & H3)%(flat_loop_spec E d (v ++ [t])); [|by intros; eapply IH].
    split.
    + intros K e [[]%lookup_empty_Some|(key & err & Hin%range_elem & Hcon)]%H1.
      destruct Hcon as [(Herr & -> & ->)|(c & p & -> & Hp & ->)].
      * exists [key]. split; [|done]. by eapply leaf_here.
      * exists (key :: p). split; [by eapply leaf_below|].
        rewrite join_cons; [done|]. by eapply leaf_at_nonempty.
    + intros p e Hp. inversion Hp as [? ? errors' k ? _ Ht' Hk He
                                     |? ? errors' k c p' ? _ Ht' Hk Hp']; subst.
      * rewrite Ht in Ht'. injection Ht' as <-.
        eapply (H3 k e); [by apply range_elem|]. by left.
      * rewrite Ht in Ht'. injection Ht' as <-.
        eapply (H3 k (ETree c)); [by apply range_elem|].
        right. exists c, p'. split; [done|]. split; [done|].
        apply join_cons. by eapply leaf_at_nonempty.
Qed.

(** No value of a flattened map is a tree. *)
Lemma flat_leaves fuel E t d v m K e :
  flat range fuel E t d v = Ret m → m !! K = Some e → GetTree e = None.
Proof.
  intros Hm HK. apply flat_spec in Hm as [Hm _].
  apply Hm in HK as (p & Hp & _). clear -Hp. by induction Hp.
Qed.

End Characterisation.

Section FlattenFuel.

Context (range : gmap string error → list (string * error)).

Lemma flatten_loop_mono rec rec' d kp entries acc h :
  (∀ h c kp', rec h c kp' ≠ OutOfFuel → rec' h c kp' = rec h c kp') →
  flatten_loop range rec d kp entries acc h ≠ OutOfFuel →
  flatten_loop range rec' d kp entries acc h =
    flatten_loop range rec d kp entries acc h.
Proof.
  intros Hrec. revert acc h.
  induction entries as [|[key err] entries IH]; intros acc h; simpl; [done|].
  destruct (GetTree err) as [c|]; [|by apply IH].
  specialize (Hrec h c (kp ++ [key])).
  destruct (rec h c (kp ++ [key])) as [[sub h']| |] eqn:Hc; simpl.
  - rewrite Hrec by done. simpl. apply IH.
  - rewrite Hrec by done. done.
  - done.
Qed.

Lemma flatten_fuel_S fuel h t d v kp :
  flatten range fuel h t d v kp ≠ OutOfFuel →
  flatten range (S fuel) h t d v kp = flatten range fuel h t d v kp.
Proof.
  revert h t v kp. induction fuel as [|fuel IH]; intros h t v kp; [done|].
  intros Hne. change (flatten range (S (S fuel)) h t d v kp) with
    (if bool_decide (t ∈ v) then Ret (∅, h) else
       '(errors, h) ← getErrors h t;
       flatten_loop range
         (λ h c kp', flatten range (S fuel) h c d (v ++ [t]) kp')
         d kp (range errors) ∅ h).
  simpl in *. case_bool_decide; [done|].
  destruct (getErrors h t) as [[errors h1]| |]; simpl in *; [|done..].
  apply flatten_loop_mono; [|done]. intros h2 c kp'. apply IH.
Qed.

Lemma flatten_fuel_le fuel fuel' h t d v kp :
  fuel ≤ fuel' → flatten range fuel h t d v kp ≠ OutOfFuel →
  flatten range fuel' h t d v kp = flatten range fuel h t d v kp.
Proof.
  induction 1 as [|fuel' Hle IH]; [done|]. intros Hne.
  rewrite flatten_fuel_S; rewrite IH; done.
Qed.

Lemma flatten_terminates h t d kp :
  flatten range (enough h) h t d [] kp ≠ OutOfFuel.
Proof.
  pose proof (flatten_flat range (enough h) h t d [] kp) as Hag.
  pose proof (flat_enough range h (enough h) t d (Nat.le_refl _)) as [_ Hne].
  unfold agrees in Hag.
  destruct (flatten range (enough h) h t d [] kp) as [[m h']| |]; try done.
  by destruct (flat range (enough h) (errs h) t d []).
Qed.

End FlattenFuel.

Section NoPanic.

Context (range : gmap string error → list (string * error)).
Hypothesis range_perm : ∀ m, range m ≡ₚ map_to_list m.

Lemma flat_loop_no_panic rec d entries acc msg :
  (∀ key c, (key, ETree c) ∈ entries → rec c ≠ Panic msg) →
  flat_loop range rec d entries acc ≠ Panic msg.
Proof.
  revert acc. induction entries as [|[key err] entries IH]; intros acc Hrec;
    simpl; [done|].
  assert (∀ key c, (key, ETree c) ∈ entries → rec c ≠ Panic msg) as Hrec'.
  { intros key' c' Hin. eapply Hrec. right. done. }
  destruct err as [| |c]; simpl; [by apply IH..|].
  specialize (Hrec key c (list_elem_of_here _ _)).
  destruct (rec c); simpl; [by apply IH|congruence|done].
Qed.

Lemma flat_no_panic h fuel t d v msg :
  closed h → is_Some (h !! t) →
  flat range fuel (errs h) t d v ≠ Panic msg.
Proof.
  intros Hcl. revert t v. induction fuel as [|fuel IH]; intros t v Ht; simpl;
    [done|].
  case_bool_decide; [done|].
  destruct (errs h t) as [errors|] eqn:He.
  - apply flat_loop_no_panic. intros key c Hin%(range_elem range range_perm).
    apply IH. by eapply Hcl.
  - unfold errs in He. destruct Ht as [tr Ht]. by rewrite Ht in He.
Qed.

End NoPanic.

(** ** [Flatten] and [Keys] in terms of [flat] *)

Section Flatten.

Context (range : gmap string error → list (string * error)).

Lemma flatten_flat_top h h1 t d kp :
  lazy_init h h1 →
  agrees h (flatten range (enough h1) h1 t d [] kp)
    (flat range (enough h) (errs h) t d []).
Proof.
  intros Hh1.
  pose proof (flatten_flat range (enough h1) h1 t d [] kp) as Hag.
  unfold enough in *. rewrite (lazy_init_size h h1) in * by done.
  rewrite (flat_ext range _ (errs h1) (errs h)) in Hag by
    (intros p; by apply lazy_init_errs).
  unfold agrees in *.
  destruct (flatten range (S (size h)) h1 t d [] kp) as [[m h2]| |],
    (flat range (S (size h)) (errs h) t d []); try done.
  destruct Hag as [-> Hh2]. split; [done|]. by etrans.
Qed.

Lemma Flatten_Flat h err :
  agrees h (Flatten range h err) (Flat range h err).
Proof.
  unfold Flatten, Flat. destruct (GetTree err) as [t|]; [|done].
  pose proof (getDelimiter_spec h t) as Hd.
  destruct (getDelimiter h t) as [[d h1]| |]; [| |done].
  - destruct Hd as [Hd Hh1]. rewrite Hd.
    pose proof (flatten_flat_top h h1 t d [] Hh1) as Hag.
    unfold agrees, mbind, outcome_bind in *.
    destruct (flatten range (enough h1) h1 t d [] []) as [[m h2]| |],
      (flat range (enough h) (errs h) t d []); try done.
    destruct Hag as [-> ?]. done.
  - destruct Hd as [Hn ->]. unfold delim. by rewrite Hn.
Qed.

Lemma Keys_Flatten h err :
  Keys range h err =
  mbind (M := outcome)
    (λ r : option (gmap string error) * heap,
       Ret ((λ m, sort_Strings (range m).*1) <$> r.1, r.2))
    (Flatten range h err).
Proof.
  unfold Keys, Flatten. destruct (GetTree err) as [t|]; [|done].
  unfold mbind, outcome_bind.
  destruct (getDelimiter h t) as [[d h1]| |]; [|done..].
  by destruct (flatten range (enough h1) h1 t d [] []) as [[m h2]| |].
Qed.

End Flatten.

(** ** The stores of the tests with a cycle *)

Lemma h_self_1 :
  errs h_self 1 = Some {[ "a" := ELeaf "test0"; "b" := ETree 1 ]}.
Proof. by vm_compute. Qed.

Lemma h_mutual_1 :
  errs h_mutual 1 = Some {[ "a" := ELeaf "test0"; "b" := ETree 2 ]}.
Proof. by vm_compute. Qed.

Lemma h_mutual_2 : errs h_mutual 2 = Some {[ "c" := ETree 1 ]}.
Proof. by vm_compute. Qed.

Lemma singleton_map_intro (m : gmap string error) k e :
  is_Some (m !! k) → (∀ K e', m !! K = Some e' → K = k ∧ e' = e) →
  m = {[k := e]}.
Proof.
  intros [e0 Hk] Hall. apply map_eq. intros K.
  destruct (decide (K = k)) as [->|Hne].
  - rewrite lookup_singleton_eq, Hk. f_equal. by apply (Hall k).
  - rewrite lookup_singleton_ne by done.
    destruct (m !! K) as [e'|] eqn:HK; [|done].
    by apply Hall in HK as [-> _].
Qed.

Lemma h_self_leaf path e :
  leaf_at (errs h_self) [] 1 path e ↔ path = ["a"] ∧ e = ELeaf "test0".
Proof.
  split.
  - inversion 1 as [? ? errors k ? _ Ht Hk He|? ? errors k c p ? _ Ht Hk Hp];
      subst; rewrite h_self_1 in Ht; injection Ht as <-.
    + apply lookup_insert_Some in Hk as [[<- <-]|[_ Hk]]; [done|].
      apply lookup_singleton_Some in Hk as [<- <-]. done.
    + apply lookup_insert_Some in Hk as [[_ [=]]|[_ Hk]].
      apply lookup_singleton_Some in Hk as [<- [= <-]].
      inversion Hp as [? ? ? ? ? Hv|? ? ? ? ? ? ? Hv]; subst;
        destruct Hv; by left.
  - intros [-> ->]. eapply leaf_here; [by intros ?%elem_of_nil|apply h_self_1|..];
      done.
Qed.

Lemma h_mutual_leaf path e :
  leaf_at (errs h_mutual) [] 1 path e ↔ path = ["a"] ∧ e = ELeaf "test0".
Proof.
  split.
  - inversion 1 as [? ? errors k ? _ Ht Hk He|? ? errors k c p ? _ Ht Hk Hp];
      subst; rewrite h_mutual_1 in Ht; injection Ht as <-.
    + apply lookup_insert_Some in Hk as [[<- <-]|[_ Hk]]; [done|].
      apply lookup_singleton_Some in Hk as [<- <-]. done.
    + apply lookup_insert_Some in Hk as [[_ [=]]|[_ Hk]].
      apply lookup_singleton_Some in Hk as [<- [= <-]].
      inversion Hp as [? ? errors k ? _ Ht Hk He|? ? errors k c p' ? _ Ht Hk Hp'];
        subst; rewrite h_mutual_2 in Ht; injection Ht as <-;
        apply lookup_singleton_Some in Hk as [<- Hk]; subst; [done|].
      injection Hk as <-.
      inversion Hp' as [? ? ? ? ? Hv|? ? ? ? ? ? ? Hv]; subst;
        destruct Hv; by left.
  - intros [-> ->]. eapply leaf_here; [by intros ?%elem_of_nil|apply h_mutual_1|..];
      done.
Qed.

Lemma h_self_initialised : initialised h_self.
Proof.
  intros p tr. unfold h_self. intros [<- <-]%lookup_singleton_Some. done.
Qed.

Lemma h_mutual_initialised : initialised h_mutual.
Proof.
  intros p tr. unfold h_mutual.
  intros [[<- <-]|[_ [<- <-]%lookup_singleton_Some]]%lookup_insert_Some; done.
Qed.

Section FlattenResults.

Context (range : gmap string error → list (string * error)).

Lemma Flatten_Ret h p om h' :
  Flatten range h (ETree p) = Ret (om, h') →
  ∃ d m, om = Some m ∧ delim h p = Some d ∧
    flat range (enough h) (errs h) p d [] = Ret m ∧ lazy_init h h'.
Proof.
  intros HF. pose proof (Flatten_Flat range h (ETree p)) as Hag.
  rewrite HF in Hag. unfold agrees, Flat in Hag. cbn [GetTree] in Hag.
  destruct (delim h p) as [d|]; [|done]. exists d.
  destruct (flat range (enough h) (errs h) p d []) as [m| |]; osimpl;
    try done.
  destruct Hag as [-> Hh]. by exists m.
Qed.

Lemma Flatten_fuel h err : Flatten range h err ≠ OutOfFuel.
Proof.
  pose proof (Flatten_Flat range h err) as Hag. intros HF.
  rewrite HF in Hag. unfold agrees, Flat in Hag.
  destruct (GetTree err) as [t|]; [|done].
  destruct (delim h t) as [d|]; [|done].
  pose proof (flat_enough range h (enough h) t d (Nat.le_refl _)) as [_ Hne].
  by destruct (flat range (enough h) (errs h) t d []).
Qed.

Hypothesis range_perm : ∀ m, range m ≡ₚ map_to_list m.

Lemma Flatten_closed h p :
  closed h → is_Some (h !! p) →
  ∃ m h', Flatten range h (ETree p) = Ret (Some m, h').
Proof.
  intros Hcl Hp. pose proof (Flatten_Flat range h (ETree p)) as Hag.
  pose proof (Flatten_fuel h (ETree p)) as Hne.
  destruct (Flatten range h (ETree p)) as [[om h']|msg|] eqn:HF; [| |done].
  - apply Flatten_Ret in HF as (d & m & -> & _). eauto.
  - exfalso. unfold agrees, Flat in Hag. cbn [GetTree] in Hag.
    destruct (delim h p) as [d|] eqn:Hd.
    + pose proof (flat_no_panic range range_perm h (enough h) p d [] msg
        Hcl Hp) as Hnp.
      destruct (flat range (enough h) (errs h) p d []); osimpl; congruence.
    + unfold delim in Hd. destruct Hp as [tr Hp]. by rewrite Hp in Hd.
Qed.

(** A map with the keys and values of the leaves of a tree that has a
    single leaf. *)
Lemma Flatten_single_leaf h p k e :
  initialised h → is_Some (h !! p) → closed h →
  (∀ path e', leaf_at (errs h) [] p path e' ↔ path = [k] ∧ e' = e) →
  Flatten range h (ETree p) = Ret (Some {[k := e]}, h).
Proof.
  intros Hi Hp Hcl Hleaf.
  destruct (Flatten_closed h p Hcl Hp) as (m & h' & HF). rewrite HF.
  apply Flatten_Ret in HF as (d & m' & [= <-] & Hd & Hm & Hh).
  rewrite (lazy_init_initialised h h') by done.
  apply (flat_spec range range_perm) in Hm as [Hs Hc].
  do 3 f_equal. apply singleton_map_intro.
  - apply (Hc [k] e). by apply Hleaf.
  - intros K e' (path & [-> ->]%Hleaf & ->)%Hs. done.
Qed.

End FlattenResults.

Lemma h_self_closed : closed h_self.
Proof.
  intros p errors k c Hp Hk. unfold errs, h_self in *.
  destruct (decide (p = 1%positive)) as [->|Hne].
  - rewrite lookup_singleton_eq in Hp. injection Hp as <-. simpl in Hk.
    apply lookup_insert_Some in Hk as [[_ [=]]|[_ Hk]].
    apply lookup_singleton_Some in Hk as [_ [= <-]]. by rewrite lookup_singleton_eq.
  - by rewrite lookup_singleton_ne in Hp.
Qed.

Lemma h_mutual_closed : closed h_mutual.
Proof.
  assert (∀ c, c = 1%positive ∨ c = 2%positive → is_Some (h_mutual !! c)) as Hc.
  { unfold h_mutual. intros c [->| ->].
    - rewrite lookup_insert_eq. eauto.
    - rewrite lookup_insert_ne by done. rewrite lookup_singleton_eq. eauto. }
  intros p errors k c Hp Hk. apply Hc. unfold errs, h_mutual in Hp.
  destruct (decide (p = 1%positive)) as [->|Hne1].
  - rewrite lookup_insert_eq in Hp. injection Hp as <-. simpl in Hk.
    apply lookup_insert_Some in Hk as [[_ [=]]|[_ Hk]].
    apply lookup_singleton_Some in Hk as [_ [= <-]]. auto.
  - rewrite lookup_insert_ne in Hp by done.
    destruct (decide (p = 2%positive)) as [->|Hne2].
    + rewrite lookup_singleton_eq in Hp. injection Hp as <-. simpl in Hk.
      apply lookup_singleton_Some in Hk as [_ [= <-]]. auto.
    + by rewrite lookup_singleton_ne in Hp.
Qed.

(** ** Cycle protection *)

(** C2.  [Flatten] terminates on every store, cyclic or not: [enough h] units
    of fuel always suffice and more fuel does not change the outcome; on a
    store without dangling pointers it returns a map.  A tree that is already
    in [visited] contributes the empty map.  The returned map has exactly the
    full keys of the leaves reachable without entering a tree a second time
    along the path, each value being such a leaf, and every such leaf being
    the value at its full key when no two of them share a full key; for the
    self-referencing and the mutually referencing trees of the tests that is
    the one entry ["a"]. *)
Theorem flatten_cycle_safe
    (range : gmap string error → list (string * error))
    (range_perm : ∀ m, range m ≡ₚ map_to_list m) :
  (∀ h t d kp fuel, enough h ≤ fuel →
     flatten range fuel h t d [] kp = flatten range (enough h) h t d [] kp ∧
     flatten range (enough h) h t d [] kp ≠ OutOfFuel) ∧
  (∀ h err, Flatten range h err ≠ OutOfFuel) ∧
  (∀ h p, closed h → is_Some (h !! p) →
     ∃ m h', Flatten range h (ETree p) = Ret (Some m, h')) ∧
  (∀ fuel h t d v kp, t ∈ v →
     flatten range (S fuel) h t d v kp = Ret (∅, h)) ∧
  (∀ fuel h t d v kp m h', flatten range fuel h t d v kp = Ret (m, h') →
     (∀ K e, m !! K = Some e →
        ∃ path, leaf_at (errs h) v t path e ∧ K = join d path) ∧
     (∀ path e, leaf_at (errs h) v t path e → is_Some (m !! join d path))) ∧
  (∀ h p m h', Flatten range h (ETree p) = Ret (Some m, h') →
     ∃ d, delim h p = Some d ∧
       (∀ K e, m !! K = Some e →
          ∃ path, leaf_at (errs h) [] p path e ∧ K = join d path) ∧
       (∀ path e, leaf_at (errs h) [] p path e → is_Some (m !! join d path)) ∧
       ((∀ path1 e1 path2 e2,
           leaf_at (errs h) [] p path1 e1 → leaf_at (errs h) [] p path2 e2 →
           join d path1 = join d path2 → e1 = e2) →
        ∀ path e, leaf_at (errs h) [] p path e → m !! join d path = Some e)) ∧
  Flatten range h_self (ETree 1) =
    Ret (Some {[ "a" := ELeaf "test0" ]}, h_self) ∧
  Flatten range h_mutual (ETree 1) =
    Ret (Some {[ "a" := ELeaf "test0" ]}, h_mutual).
Proof.
  repeat apply conj.
  - intros h t d kp fuel Hle.
    pose proof (flatten_terminates range h t d kp) as Hne.
    split; [|done]. by apply flatten_fuel_le.
  - apply Flatten_fuel.
  - by apply Flatten_closed.
  - intros fuel h t d v kp Hv. simpl. by rewrite bool_decide_eq_true_2.
  - intros fuel h t d v kp m h' Hf.
    pose proof (flatten_flat range fuel h t d v kp) as Hag.
    rewrite Hf in Hag. unfold agrees in Hag.
    destruct (flat range fuel (errs h) t d v) as [m'| |] eqn:Hm; try done.
    destruct Hag as [<- _]. by apply (flat_spec range range_perm) in Hm.
  - intros h p m h' (d & m' & [= <-] & Hd & Hm & _)%Flatten_Ret.
    exists d. split; [done|].
    apply (flat_spec range range_perm) in Hm as [Hs Hc].
    split; [done|]. split; [done|].
    intros Hdistinct path e Hp. destruct (Hc _ _ Hp) as [e0 He0].
    rewrite He0. f_equal. destruct (Hs _ _ He0) as (path0 & Hp0 & Hj).
    by eapply Hdistinct.
  - apply Flatten_single_leaf;
      [done|apply h_self_initialised| |apply h_self_closed|apply h_self_leaf].
    unfold h_self. rewrite lookup_singleton_eq. eauto.
  - apply Flatten_single_leaf;
      [done|apply h_mutual_initialised| |apply h_mutual_closed
      |apply h_mutual_leaf].
    unfold h_mutual. rewrite lookup_insert_eq. eauto.
Qed.

Lemma flatten_cycle_safe_witness :
  (∀ m : gmap string error, map_to_list m ≡ₚ map_to_list m) ∧
  Flatten map_to_list h_self (ETree 1) =
    Ret (Some {[ "a" := ELeaf "test0" ]}, h_self).
Proof.
  split; [done|].
  apply (flatten_cycle_safe map_to_list (λ m, Permutation_refl _)).
Defined.

(** ** The delimiter of the walk *)

Lemma errs_with_delimiters d h q : errs (with_delimiters d h) q = errs h q.
Proof.
  unfold errs, with_delimiters. rewrite lookup_fmap. by destruct (h !! q).
Qed.

Lemma errs_size h1 h2 : (∀ q, errs h1 q = errs h2 q) → size h1 = size h2.
Proof.
  intros He. rewrite <- !size_dom. f_equal. apply set_eq. intros q.
  rewrite !elem_of_dom. specialize (He q). unfold errs in He.
  destruct (h1 !! q), (h2 !! q); try done; split; eauto.
Qed.

Section Delimiter.

Context (range : gmap string error → list (string * error)).
Hypothesis range_perm : ∀ m, range m ≡ₚ map_to_list m.

Lemma Flatten_same_entries h1 h2 p m h1' :
  (∀ q, errs h1 q = errs h2 q) → delim h1 p = delim h2 p →
  Flatten range h1 (ETree p) = Ret (Some m, h1') →
  ∃ h2', Flatten range h2 (ETree p) = Ret (Some m, h2').
Proof.
  intros He Hd (d & m' & [= <-] & Hd1 & Hm & _)%Flatten_Ret.
  pose proof (Flatten_Flat range h2 (ETree p)) as Hag.
  unfold agrees, Flat in Hag. cbn [GetTree] in Hag.
  rewrite <- Hd, Hd1 in Hag. unfold enough in *.
  rewrite <- (errs_size h1 h2 He) in Hag.
  rewrite <- (flat_ext range _ (errs h1) (errs h2)) in Hag by done.
  rewrite Hm in Hag. osimpl.
  destruct (Flatten range h2 (ETree p)) as [[om h2']| |]; try done.
  destruct Hag as [-> _]. eauto.
Qed.

Lemma flatten_rekeys fuel h t d v kp m h' errors :
  t ∉ v → errs h t = Some errors →
  flatten range fuel h t d v kp = Ret (m, h') →
  (∀ K e, m !! K = Some e →
     (errors !! K = Some e ∧ GetTree e = None) ∨
     ∃ k c path, errors !! k = Some (ETree c) ∧
       leaf_at (errs h) (v ++ [t]) c path e ∧ K = k +:+ d +:+ join d path) ∧
  (∀ k c fuel' kp' sub hs ck,
     errors !! k = Some (ETree c) →
     flatten range fuel' h c d (v ++ [t]) kp' = Ret (sub, hs) →
     is_Some (sub !! ck) → is_Some (m !! (k +:+ d +:+ ck))).
Proof.
  intros Hv Ht Hf.
  pose proof (flatten_flat range fuel h t d v kp) as Hag.
  rewrite Hf in Hag. unfold agrees in Hag.
  destruct (flat range fuel (errs h) t d v) as [m'| |] eqn:Hm; try done.
  destruct Hag as [<- _].
  apply (flat_spec range range_perm) in Hm as [Hs Hc]. split.
  - intros K e (path & Hp & ->)%Hs.
    inversion Hp as [? ? errors' k ? _ Ht' Hk He
                    |? ? errors' k c p' ? _ Ht' Hk Hp']; subst;
      rewrite Ht in Ht'; injection Ht' as <-.
    + left. done.
    + right. exists k, c, p'. split; [done|]. split; [done|].
      apply join_cons. by eapply leaf_at_nonempty.
  - intros k c fuel' kp' sub hs ck Hk Hsub [e Hck].
    pose proof (flatten_flat range fuel' h c d (v ++ [t]) kp') as Hag.
    rewrite Hsub in Hag. unfold agrees in Hag.
    destruct (flat range fuel' (errs h) c d (v ++ [t])) as [sub'| |] eqn:Hm';
      try done.
    destruct Hag as [<- _].
    apply (flat_spec range range_perm) in Hm' as [Hs' _].
    apply Hs' in Hck as (path & Hp & ->).
    rewrite <- join_cons by (by eapply leaf_at_nonempty).
    apply (Hc _ e). by eapply leaf_below.
Qed.

End Delimiter.

Lemma Tree_Error_Flatten range tree_Error h t :
  Tree_Error range tree_Error h (Some t) =
  mbind (M := outcome)
    (λ fh : Formatter * heap,
       mbind (M := outcome)
         (λ r : option (gmap string error) * heap,
            match r.1 with
            | Some flattened =>
                s ← call_Formatter range tree_Error fh.1 flattened;
                Ret (s, r.2)
            | None => Ret ("", r.2)
            end)
         (Flatten range fh.2 (ETree t)))
    (getFormatter h t).
Proof.
  unfold Tree_Error, Flatten. cbn [GetTree].
  destruct (getFormatter h t) as [[f h1]| |]; [|done..]. osimpl. cbn [fst snd].
  destruct (getDelimiter h1 t) as [[d h2]| |]; [|done..]. osimpl.
  by destruct (flatten range (enough h2) h2 t d [] []) as [[m h3]| |].
Qed.

(** C3.  Every join of the walk uses the delimiter of the tree on which
    [Flatten] was called: each key of the result is the path of a leaf joined
    by that delimiter, the delimiter fields of the stored trees do not
    influence the result (two stores with the same entries and the same
    delimiter at the root flatten to the same map), an entry [childKey] of
    the flattened child under key [k] appears under [k + delimiter + childKey],
    and [Error] formats the result of that same [Flatten]. *)
Theorem flatten_top_level_delimiter
    (range : gmap string error → list (string * error))
    (range_perm : ∀ m, range m ≡ₚ map_to_list m) :
  (∀ h p m h', Flatten range h (ETree p) = Ret (Some m, h') →
     ∃ d, delim h p = Some d ∧
       ∀ K e, m !! K = Some e →
         ∃ path, leaf_at (errs h) [] p path e ∧ K = join d path) ∧
  (∀ h1 h2 p m h1',
     (∀ q, errs h1 q = errs h2 q) → delim h1 p = delim h2 p →
     Flatten range h1 (ETree p) = Ret (Some m, h1') →
     ∃ h2', Flatten range h2 (ETree p) = Ret (Some m, h2')) ∧
  (∀ fuel h t d v kp m h' errors,
     t ∉ v → errs h t = Some errors →
     flatten range fuel h t d v kp = Ret (m, h') →
     (∀ K e, m !! K = Some e →
        (errors !! K = Some e ∧ GetTree e = None) ∨
        ∃ k c path, errors !! k = Some (ETree c) ∧
          leaf_at (errs h) (v ++ [t]) c path e ∧
          K = k +:+ d +:+ join d path) ∧
     (∀ k c fuel' kp' sub hs ck,
        errors !! k = Some (ETree c) →
        flatten range fuel' h c d (v ++ [t]) kp' = Ret (sub, hs) →
        is_Some (sub !! ck) → is_Some (m !! (k +:+ d +:+ ck)))) ∧
  (∀ tree_Error h t,
     Tree_Error range tree_Error h (Some t) =
     mbind (M := outcome)
       (λ fh : Formatter * heap,
          mbind (M := outcome)
            (λ r : option (gmap string error) * heap,
               match r.1 with
               | Some flattened =>
                   s ← call_Formatter range tree_Error fh.1 flattened;
                   Ret (s, r.2)
               | None => Ret ("", r.2)
               end)
            (Flatten range fh.2 (ETree t)))
       (getFormatter h t)).
Proof.
  repeat apply conj.
  - intros h p m h' (d & m' & [= <-] & Hd & Hm & _)%Flatten_Ret.
    exists d. split; [done|]. by apply (flat_spec range range_perm) in Hm as [? _].
  - apply Flatten_same_entries.
  - intros. by eapply flatten_rekeys.
  - intros. apply Tree_Error_Flatten.
Qed.

Lemma flatten_top_level_delimiter_witness :
  (∀ m : gmap string error, map_to_list m ≡ₚ map_to_list m) ∧
  ∃ h', Flatten map_to_list (with_delimiters "/" h_nested) (ETree 1) =
    Ret (Some {[ "a" := ELeaf "test0"; "b/ba" := ELeaf "test1";
                 "b/bb" := ELeaf "test2"; "c/ca/caa" := ELeaf "test3";
                 "c/ca/cab" := ELeaf "test4"; "c/cb" := ELeaf "test5" ]}, h').
Proof.
  split; [done|].
  pose proof (flatten_top_level_delimiter map_to_list (λ m, Permutation_refl _))
    as (_ & Hsame & _).
  eapply (Hsame (<[1%positive :=
            mkTree (Some {[ "a" := ELeaf "test0"; "b" := ETree 2;
                            "c" := ETree 3 ]}) "/" None]> h_nested)).
  - intros q. rewrite errs_with_delimiters. unfold errs, h_nested.
    destruct (decide (q = 1%positive)) as [->|Hne].
    + by rewrite !lookup_insert_eq.
    + by rewrite !(lookup_insert_ne _ 1%positive) by done.
  - by vm_compute.
  - by vm_compute.
Defined.

(** ** [Keys] *)

Lemma sort_Strings_spec keys :
  Sorted String.le (sort_Strings keys) ∧ sort_Strings keys ≡ₚ keys.
Proof.
  split; [apply Sorted_merge_sort, _|apply merge_sort_Permutation].
Qed.

(** C7.  [Keys] returns the nil slice for an error that is not a tree;
    otherwise it fails as [Flatten] fails, or returns the keys of the map
    that [Flatten] returns, each once, in ascending order (and leaves the
    store as [Flatten] leaves it). *)
Theorem Keys_sorted_Flatten_keys
    (range : gmap string error → list (string * error))
    (range_perm : ∀ m, range m ≡ₚ map_to_list m) (h : heap) (err : error) :
  (GetTree err = None → Keys range h err = Ret (None, h)) ∧
  match Flatten range h err with
  | Ret (Some m, h') =>
      ∃ keys, Keys range h err = Ret (Some keys, h') ∧
        Sorted String.le keys ∧ NoDup keys ∧
        ∀ k, k ∈ keys ↔ is_Some (m !! k)
  | Ret (None, h') => Keys range h err = Ret (None, h') ∧ GetTree err = None
  | Panic msg => Keys range h err = Panic msg
  | OutOfFuel => False
  end.
Proof.
  split.
  - unfold Keys. by intros ->.
  - rewrite Keys_Flatten.
    pose proof (Flatten_fuel range h err) as Hne.
    destruct (Flatten range h err) as [[[m|] h']| |] eqn:HF; osimpl; try done.
    + exists (sort_Strings (range m).*1). split; [done|].
      destruct (sort_Strings_spec (range m).*1) as [Hs Hp].
      split; [done|]. split.
      * rewrite Hp. by apply range_NoDup.
      * intros k. rewrite Hp. by apply range_keys.
    + split; [done|]. destruct err as [| |p]; try done.
      by apply Flatten_Ret in HF as (? & ? & [=] & _).
Qed.

Lemma Keys_sorted_Flatten_keys_witness :
  (∀ m : gmap string error, map_to_list m ≡ₚ map_to_list m) ∧
  Keys map_to_list h_nested (ELeaf "test") = Ret (None, h_nested).
Proof.
  split; [done|].
  apply (Keys_sorted_Flatten_keys map_to_list (λ m, Permutation_refl _)).
  reflexivity.
Defined.

(** The keys of the nested tree of [TestKeys], with the map order of the
    library. *)
Example Keys_nested :
  Keys map_to_list h_nested (ETree 1) =
    Ret (Some ["a"; "b.ba"; "b.bb"; "c.ca.caa"; "c.ca.cab"; "c.cb"], h_nested).
Proof. by vm_compute. Qed.

(** ** Colliding full keys *)








(** With the map order of the library the nested leaf is the one that
    survives. *)
Example Flatten_collide :
  Flatten map_to_list h_collide (ETree 1) =
    Ret (Some {[ "a:b" := ELeaf "nested" ]}, h_collide).
Proof. by vm_compute. Qed.

(** ** The simple formatter *)

Section Formatter.

Context (range : gmap string error → list (string * error)).
Context (tree_Error : loc → outcome string).
Hypothesis range_perm : ∀ m, range m ≡ₚ map_to_list m.

Lemma wrap_errors_leaves msgs keys :
  (∀ k, k ∈ keys → is_Some (msgs !! k)) →
  wrap_errors tree_Error (ELeaf <$> msgs) keys = Ret (entry_line msgs <$> keys).
Proof.
  induction keys as [|key keys IH]; intros Hin; simpl; [done|].
  destruct (Hin key) as [msg Hmsg]; [left|].
  rewrite lookup_fmap, Hmsg. simpl.
  rewrite IH by (intros k ?; apply Hin; by right). simpl.
  unfold entry_line. by rewrite Hmsg.
Qed.

Lemma sorted_keys_unique (keys keys' : list string) :
  Sorted String.le keys → Sorted String.le keys' →
  NoDup keys → NoDup keys' → (∀ k, k ∈ keys ↔ k ∈ keys') → keys = keys'.
Proof.
  intros Hs Hs' Hn Hn' Hin.
  apply (Sorted_unique String.le); [done..|]. by apply NoDup_Permutation.
Qed.

Lemma sorted_range_keys m :
  sort_Strings (range m).*1 = sort_Strings (map_to_list m).*1.
Proof.
  destruct (sort_Strings_spec (range m).*1) as [Hs Hp].
  destruct (sort_Strings_spec (map_to_list m).*1) as [Hs' Hp'].
  apply sorted_keys_unique; [done..| | |].
  - rewrite Hp. by apply range_NoDup.
  - rewrite Hp'. apply NoDup_fst_map_to_list.
  - intros k. by rewrite Hp, Hp', range_perm.
Qed.

Lemma SimpleFormatter_range m :
  SimpleFormatter range tree_Error m = SimpleFormatter map_to_list tree_Error m.
Proof. unfold SimpleFormatter. by rewrite sorted_range_keys. Qed.

Lemma SimpleFormatter_leaves msgs :
  ∃ keys,
    Sorted String.le keys ∧ NoDup keys ∧
    (∀ k, k ∈ keys ↔ is_Some (msgs !! k)) ∧
    SimpleFormatter range tree_Error (ELeaf <$> msgs) =
      Ret (Sprintf_d (size msgs) +:+ " error" +:+
           (if decide (size msgs = 1) then "" else "s") +:+
           " occurred:" +:+ newline +:+ newline +:+
           Join (entry_line msgs <$> keys) newline).
Proof.
  exists (sort_Strings (range (ELeaf <$> msgs)).*1).
  destruct (sort_Strings_spec (range (ELeaf <$> msgs)).*1) as [Hs Hp].
  assert (∀ k, k ∈ sort_Strings (range (ELeaf <$> msgs)).*1 ↔
               is_Some (msgs !! k)) as Hin.
  { intros k. rewrite Hp, (range_keys range range_perm), lookup_fmap.
    apply fmap_is_Some. }
  split; [done|]. split; [rewrite Hp; by apply range_NoDup|]. split; [done|].
  unfold SimpleFormatter. rewrite wrap_errors_leaves by (intros k; apply Hin).
  simpl. rewrite map_size_fmap.
  destruct (decide (size msgs = 1)) as [->|Hne].
  - done.
  - by rewrite bool_decide_eq_true_2.
Qed.

End Formatter.

(** C9.  On a flattened map, whose values are leaves with the messages
    [msgs], the simple formatter returns the number of entries, [" error"],
    an ["s"] unless there is exactly one entry, [" occurred:"], an empty
    line, and the lines ["* " + path + ": " + message] of the entries in
    ascending order of the paths, separated by single newlines.  The two
    maps of [TestSimpleFormatter] give the strings of the test. *)
Theorem SimpleFormatter_output
    (range : gmap string error → list (string * error))
    (tree_Error : loc → outcome string)
    (range_perm : ∀ m, range m ≡ₚ map_to_list m) :
  (∀ msgs : gmap string string,
     ∃ keys,
       Sorted String.le keys ∧ NoDup keys ∧
       (∀ k, k ∈ keys ↔ is_Some (msgs !! k)) ∧
       SimpleFormatter range tree_Error (ELeaf <$> msgs) =
         Ret (Sprintf_d (size msgs) +:+ " error" +:+
              (if decide (size msgs = 1) then "" else "s") +:+
              " occurred:" +:+ newline +:+ newline +:+
              Join ((λ key, "* " +:+ key +:+ ": " +:+ default "" (msgs !! key))
                      <$> keys) newline)) ∧
  SimpleFormatter range tree_Error {[ "key" := ELeaf "value" ]} =
    Ret ("1 error occurred:" +:+ newline +:+ newline +:+ "* key: value") ∧
  SimpleFormatter range tree_Error
      {[ "a" := ELeaf "c"; "b" := ELeaf "a"; "c" := ELeaf "b" ]} =
    Ret ("3 errors occurred:" +:+ newline +:+ newline +:+
         "* a: c" +:+ newline +:+ "* b: a" +:+ newline +:+ "* c: b").
Proof.
  split; [|split].
  - intros msgs. by apply SimpleFormatter_leaves.
  - rewrite SimpleFormatter_range by done. vm_compute. reflexivity.
  - rewrite SimpleFormatter_range by done. vm_compute. reflexivity.
Qed.

Lemma SimpleFormatter_output_witness :
  (∀ m : gmap string error, map_to_list m ≡ₚ map_to_list m) ∧
  SimpleFormatter map_to_list (λ _, OutOfFuel) {[ "key" := ELeaf "value" ]} =
    Ret ("1 error occurred:" +:+ newline +:+ newline +:+ "* key: value").
Proof.
  split; [intros m; reflexivity|].
  apply (SimpleFormatter_output map_to_list (λ _, OutOfFuel)
           (λ m, Permutation_refl _)).
Defined.

(** ** Lookup of the most specific error *)

Lemma getErrors_Ret h t errors :
  errs h t = Some errors →
  ∃ h', getErrors h t = Ret (errors, h') ∧ lazy_init h h'.
Proof.
  intros He. pose proof (getErrors_spec h t) as Hg.
  destruct (getErrors h t) as [[errors' h']| |]; [| |done].
  - destruct Hg as [He' Hh]. exists h'. split; [|done]. congruence.
  - destruct Hg as [Hn _]. unfold errs in He. by rewrite Hn in He.
Qed.

Lemma get_any_stuck E t key path v next rest :
  resolves E t key path v (next :: rest) → stuck E v next →
  ∀ h, (∀ p, errs h p = E p) →
    ∃ h', get h t true key path = Ret (v, h') ∧ lazy_init h h'.
Proof.
  intros Hres Hstuck. remember (next :: rest) as rem eqn:Hrem.
  induction Hres as [t errors key path v Ht Hk
                    |t errors key c path0 path1 v rem Ht Hk Hres IH];
    intros h HE; subst.
  - rewrite <- HE in Ht. destruct (getErrors_Ret h t errors Ht) as (h1 & Hg & Hh1).
    simpl. rewrite Hg. simpl. rewrite Hk.
    destruct Hstuck as [[msg ->]|(c & errors_c & -> & Hc & Hnext)]; simpl.
    + eauto.
    + rewrite <- HE, <- (lazy_init_errs h h1) in Hc by done.
      destruct (getErrors_Ret h1 c errors_c Hc) as (h2 & Hg2 & Hh2).
      destruct rest; simpl; rewrite Hg2; simpl; rewrite Hnext; simpl;
        (eexists; split; [done|by etrans]).
  - rewrite <- HE in Ht. destruct (getErrors_Ret h t errors Ht) as (h1 & Hg & Hh1).
    simpl. rewrite Hg. simpl. rewrite Hk. simpl.
    destruct (IH eq_refl Hstuck h1) as (h2 & Hg2 & Hh2).
    { intros p. rewrite <- HE. by apply lazy_init_errs. }
    rewrite Hg2. simpl. assert (v ≠ ENil) as Hv.
    { destruct Hstuck as [[msg ->]|(c' & ? & -> & _)]; done. }
    rewrite bool_decide_eq_false_2 by done. simpl.
    eexists; split; [done|by etrans].
Qed.

Lemma get_any_found E t key path v :
  resolves E t key path v [] → v ≠ ENil →
  ∀ h, (∀ p, errs h p = E p) →
    ∃ h', get h t true key path = Ret (v, h') ∧ lazy_init h h'.
Proof.
  intros Hres Hv. remember [] as rem eqn:Hrem.
  induction Hres as [t errors key path v Ht Hk
                    |t errors key c path0 path1 v rem Ht Hk Hres IH];
    intros h HE; subst.
  - rewrite <- HE in Ht. destruct (getErrors_Ret h t errors Ht) as (h1 & Hg & Hh1).
    simpl. rewrite Hg. simpl. rewrite Hk. eauto.
  - rewrite <- HE in Ht. destruct (getErrors_Ret h t errors Ht) as (h1 & Hg & Hh1).
    simpl. rewrite Hg. simpl. rewrite Hk. simpl.
    destruct (IH eq_refl Hv h1) as (h2 & Hg2 & Hh2).
    { intros p. rewrite <- HE. by apply lazy_init_errs. }
    rewrite Hg2. simpl. rewrite bool_decide_eq_false_2 by done. simpl.
    eexists; split; [done|by etrans].
Qed.

(** C8.  [GetAny] returns an error that is not a tree as it is.  On a tree,
    when the walk reaches a value after one or more steps and cannot go on
    although keys remain (the value is a leaf, or a tree without the next
    key), that value is returned; a value reached at the end of the path is
    returned; and when the first key is absent the result is nil. *)
Theorem GetAny_most_specific :
  (∀ h err key path, GetTree err = None →
     GetAny h err key path = Ret (err, h)) ∧
  (∀ h t key path v next rest,
     resolves (errs h) t key path v (next :: rest) →
     stuck (errs h) v next →
     ∃ h', GetAny h (ETree t) key path = Ret (v, h') ∧ lazy_init h h') ∧
  (∀ h t key path v,
     resolves (errs h) t key path v [] → v ≠ ENil →
     ∃ h', GetAny h (ETree t) key path = Ret (v, h') ∧ lazy_init h h') ∧
  (∀ h t key path errors,
     errs h t = Some errors → errors !! key = None →
     ∃ h', GetAny h (ETree t) key path = Ret (ENil, h') ∧ lazy_init h h').
Proof.
  split; [|split; [|split]].
  - intros h err key path Herr. unfold GetAny. by rewrite Herr.
  - intros h t key path v next rest Hres Hstuck.
    by apply (get_any_stuck (errs h) t key path v next rest).
  - intros h t key path v Hres Hv.
    by apply (get_any_found (errs h) t key path v).
  - intros h t key path errors Ht Hk. unfold GetAny. cbn [GetTree].
    destruct (getErrors_Ret h t errors Ht) as (h1 & Hg & Hh1).
    exists h1. split; [|done]. destruct path; simpl; rewrite Hg; simpl;
      by rewrite Hk.
Qed.

(** [GetAny(tree, "c", "b")] of the test: the key ["b"] is absent from the
    child, and the child itself is returned. *)
Lemma GetAny_most_specific_witness :
  ∃ h', GetAny h_get (ETree 1) "c" ["b"] = Ret (ETree 2, h').
Proof.
  destruct GetAny_most_specific as (_ & Hstuck & _).
  destruct (Hstuck h_get 1%positive "c" ["b"] (ETree 2) "b" []) as (h' & HG & _).
  - eapply resolves_here; [by vm_compute|done].
  - right. exists 2%positive, {[ "a" := ELeaf "test1" ]}.
    split; [done|]. split; [by vm_compute|done].
  - by exists h'.
Defined.

(** ** What the read traversals write *)

Global Instance same_delimiters_preorder : PreOrder same_delimiters.
Proof.
  split.
  - by intros h p.
  - intros h1 h2 h3 H12 H23 p. by rewrite H23, H12.
Qed.

Lemma getErrors_delimiters h t errors h' :
  getErrors h t = Ret (errors, h') → same_delimiters h h'.
Proof.
  unfold getErrors. destruct (h !! t) as [tr|] eqn:Ht; [|done].
  destruct (Errors tr); intros [= <- <-]; [done|].
  intros p. destruct (decide (t = p)) as [<-|Hne].
  - by rewrite lookup_insert_eq, Ht.
  - by rewrite lookup_insert_ne.
Qed.

Lemma getDelimiter_delimiters h t d h' :
  getDelimiter h t = Ret (d, h') →
  ∀ p, p ≠ t → Delimiter <$> h' !! p = Delimiter <$> h !! p.
Proof.
  unfold getDelimiter. destruct (h !! t) as [tr|] eqn:Ht; [|done].
  destruct (decide (Delimiter tr = "")); intros [= <- <-] p Hne; [|done].
  by rewrite lookup_insert_ne.
Qed.

Lemma get_lazy path h t any key r h' :
  get h t any key path = Ret (r, h') → lazy_init h h' ∧ same_delimiters h h'.
Proof.
  revert h t key r h'. induction path as [|path0 path1 IH];
    intros h t key r h'; simpl.
  - pose proof (getErrors_spec h t) as Hg.
    destruct (getErrors h t) as [[errors h1]| |] eqn:Hge; simpl; [|done..].
    destruct Hg as [_ Hh1]. apply getErrors_delimiters in Hge.
    destruct (errors !! key); by intros [= <- <-].
  - pose proof (getErrors_spec h t) as Hg.
    destruct (getErrors h t) as [[errors h1]| |] eqn:Hge; simpl; [|done..].
    destruct Hg as [_ Hh1]. apply getErrors_delimiters in Hge.
    destruct (errors !! key) as [child|]; [|by intros [= <- <-]].
    destruct (GetTree child) as [c|].
    + destruct (get h1 c any path0 path1) as [[childErr h2]| |] eqn:Hget;
        simpl; [|done..].
      apply IH in Hget as [Hh2 Hd2].
      destruct (bool_decide (childErr = ENil) && any); intros [= <- <-];
        split; by etrans.
    + destruct any; by intros [= <- <-].
Qed.

Section Frame.

Context (range : gmap string error → list (string * error)).

Lemma flatten_loop_delimiters rec d kp entries acc h0 h m h' :
  same_delimiters h0 h →
  (∀ h c kp' m h', rec h c kp' = Ret (m, h') → same_delimiters h h') →
  flatten_loop range rec d kp entries acc h = Ret (m, h') →
  same_delimiters h0 h'.
Proof.
  intros Hh Hrec. revert acc h Hh.
  induction entries as [|[key err] entries IH]; intros acc h Hh; simpl.
  - by intros [= <- <-].
  - destruct (GetTree err) as [c|]; [|by apply IH].
    destruct (rec h c (kp ++ [key])) as [[sub h1]| |] eqn:Hc; simpl; [|done..].
    apply IH. etrans; [done|]. by eapply Hrec.
Qed.

Lemma flatten_delimiters fuel h t d v kp m h' :
  flatten range fuel h t d v kp = Ret (m, h') → same_delimiters h h'.
Proof.
  revert h t v kp m h'. induction fuel as [|fuel IH]; intros h t v kp m h';
    simpl; [done|].
  case_bool_decide; [by intros [= <- <-]|].
  destruct (getErrors h t) as [[errors h1]| |] eqn:Hge; simpl; [|done..].
  apply getErrors_delimiters in Hge.
  apply flatten_loop_delimiters; [done|]. intros h2 c kp' m2 h2'. apply IH.
Qed.

Lemma Flatten_lazy h err om h' :
  Flatten range h err = Ret (om, h') →
  lazy_init h h' ∧
  ∀ p, err ≠ ETree p → Delimiter <$> h' !! p = Delimiter <$> h !! p.
Proof.
  intros HF. split.
  - pose proof (Flatten_Flat range h err) as Hag. rewrite HF in Hag.
    unfold agrees in Hag. destruct (Flat range h err); try done. by destruct Hag.
  - intros p Hp. unfold Flatten in HF. destruct err as [| |t]; cbn [GetTree] in HF;
      try by injection HF as <- <-.
    destruct (getDelimiter h t) as [[d h1]| |] eqn:Hgd; [|done..].
    osimpl.
    destruct (flatten range (enough h1) h1 t d [] []) as [[m h2]| |] eqn:Hf;
      [|done..].
    osimpl. injection HF as <- <-.
    rewrite (flatten_delimiters _ _ _ _ _ _ _ _ Hf).
    eapply getDelimiter_delimiters; [done|]. congruence.
Qed.

Lemma Keys_lazy h err ok h' :
  Keys range h err = Ret (ok, h') →
  lazy_init h h' ∧
  ∀ p, err ≠ ETree p → Delimiter <$> h' !! p = Delimiter <$> h !! p.
Proof.
  rewrite Keys_Flatten.
  destruct (Flatten range h err) as [[om h1]| |] eqn:HF; [|done..].
  osimpl. intros [= <- <-]. by eapply Flatten_lazy.
Qed.

End Frame.

(** C5 as stated fails: the zero-valued tree is not the same after
    [Flatten] (its map and its delimiter were initialised), nor after [Get]
    (its map was). *)
Lemma reads_initialise_zero_tree :
  Flatten map_to_list h_zero (ETree 1) =
    Ret (Some ∅, {[ 1%positive := mkTree (Some ∅) ":" None ]}) ∧
  Get h_zero (ETree 1) "a" [] =
    Ret (ENil, {[ 1%positive := mkTree (Some ∅) "" None ]}) ∧
  ({[ 1%positive := mkTree (Some ∅) ":" None ]} : heap) ≠ h_zero ∧
  ({[ 1%positive := mkTree (Some ∅) "" None ]} : heap) ≠ h_zero.
Proof.
  split; [by vm_compute|]. split; [by vm_compute|].
  split; intros Heq; apply (f_equal (λ h : heap, h !! 1%positive)) in Heq;
    unfold h_zero in Heq; rewrite !lookup_singleton_eq in Heq; discriminate.
Qed.

(** C5, amended.  A read traversal that returns never adds, removes or
    changes an entry of a tree and never writes a formatter.  Its only
    writes are initialisations of fields at their zero value: a nil map
    becomes the empty map, and the empty delimiter of the tree on which
    [Flatten] or [Keys] is called becomes [":"]; [Get] and [GetAny] leave
    every delimiter alone.  A tree that has a map and a delimiter is the same
    afterwards, and a store whose trees all have them is returned
    unchanged. *)
Theorem reads_only_initialise
    (range : gmap string error → list (string * error))
    (h : heap) (err : error) (key : string) (path : list string) (h' : heap) :
  ((∃ r, Flatten range h err = Ret (r, h')) ∨
   (∃ r, Keys range h err = Ret (r, h')) →
   ∀ p, err ≠ ETree p → Delimiter <$> h' !! p = Delimiter <$> h !! p) ∧
  ((∃ r, Get h err key path = Ret (r, h')) ∨
   (∃ r, GetAny h err key path = Ret (r, h')) →
   same_delimiters h h') ∧
  ((∃ r, Flatten range h err = Ret (r, h')) ∨
   (∃ r, Keys range h err = Ret (r, h')) ∨
   (∃ r, Get h err key path = Ret (r, h')) ∨
   (∃ r, GetAny h err key path = Ret (r, h')) →
   lazy_init h h' ∧
   (∀ p, errs h' p = errs h p) ∧
   (∀ p, Formatter_ <$> h' !! p = Formatter_ <$> h !! p) ∧
   (∀ p tr, h !! p = Some tr → Errors tr ≠ None → Delimiter tr ≠ "" →
      h' !! p = Some tr) ∧
   (initialised h → h' = h)).
Proof.
  assert ((∃ r, Get h err key path = Ret (r, h')) ∨
          (∃ r, GetAny h err key path = Ret (r, h')) →
          lazy_init h h' ∧ same_delimiters h h') as Hget.
  { unfold Get, GetAny. intros [[r HG]|[r HG]];
      (destruct (GetTree err) as [t|];
        [by eapply get_lazy|by injection HG as <- <-]). }
  split; [|split].
  - intros [[r HF]|[r HK]].
    + by eapply Flatten_lazy.
    + by eapply Keys_lazy.
  - by intros [_ ?]%Hget.
  - intros Hread. assert (lazy_init h h') as Hh.
    { destruct Hread as [[r HF]|[[r HK]|Hread]].
      - by eapply Flatten_lazy.
      - by eapply Keys_lazy.
      - by apply Hget. }
    split; [done|]. split; [intros p; by apply lazy_init_errs|]. split.
    + intros p. specialize (Hh p).
      destruct (h !! p) as [tr|], (h' !! p) as [tr'|]; try done.
      destruct Hh as (_ & _ & Hf). simpl. by rewrite Hf.
    + split; [|intros Hi; by apply lazy_init_initialised].
      intros p tr Hp He Hd. specialize (Hh p). rewrite Hp in Hh.
      destruct (h' !! p) as [tr'|]; [|done].
      destruct Hh as ([He'|[? _]] & [Hd'|[? _]] & Hf); try done.
      destruct tr, tr'; simpl in *. congruence.
Qed.

Lemma reads_only_initialise_witness :
  (∃ r, Get h_get (ETree 1) "c" ["a"] = Ret (r, h_get)) ∧
  same_delimiters h_get h_get.
Proof.
  assert (∃ r, Get h_get (ETree 1) "c" ["a"] = Ret (r, h_get)) as HG.
  { exists (ELeaf "test1"). by vm_compute. }
  split; [exact HG|].
  apply (reads_only_initialise map_to_list h_get (ETree 1) "c" ["a"] h_get).
  left. exact HG.
Defined.

(** ** Mutation: [Set] and [Add] *)

Lemma set_new h key err :
  err ≠ ENil →
  set h None key err =
    Ret (Some (fresh (dom h)),
         <[fresh (dom h) :=
             mkTree (Some {[ key := err ]}) DefaultDelimiter (Some FSimple)]> h).
Proof.
  intros Herr. unfold set, New, getErrors.
  destruct err; [done| |]; rewrite lookup_insert_eq; simpl;
    by rewrite alter_insert_eq, insert_empty.
Qed.

(** C1.  The code does not do what the claim says: for a parent that is an
    error but not a tree, [Set] panics, whereas [Add] returns normally: with
    a nil [err] it returns nil, and otherwise it returns a new tree that
    holds [err] under [key], the parent being dropped. *)
Theorem Add_accepts_non_tree_parent (h : heap) (msg key : string) (err : error) :
  Set_ h (ELeaf msg) key err = Panic not_a_tree ∧
  Add h (ELeaf msg) key err =
    if decide (err = ENil) then Ret (ENil, h)
    else Ret (ETree (fresh (dom h)),
              <[fresh (dom h) :=
                  mkTree (Some {[ key := err ]}) DefaultDelimiter
                    (Some FSimple)]> h).
Proof.
  split; [done|]. unfold Add. cbn [GetTree]. osimpl.
  destruct (decide (err = ENil)) as [->|Herr]; [done|].
  by rewrite set_new.
Qed.

(** The call of the test that was meant to check [Add]:
    [Add(errors.New("test"), "a", errors.New("test0"))] on the empty store. *)
Example Add_on_non_tree :
  Add ∅ (ELeaf "test") "a" (ELeaf "test0") =
    Ret (ETree 1,
         {[ 1%positive :=
              mkTree (Some {[ "a" := ELeaf "test0" ]}) ":" (Some FSimple) ]}).
Proof. by vm_compute. Qed.

(** C6 as stated fails: with a parent that is not a tree, [Set] panics even
    though [err] is nil; and [Add] with a nil [err] panics when the key is
    already present. *)
Lemma nil_err_can_panic :
  Set_ ∅ (ELeaf "test") "a" ENil = Panic not_a_tree ∧
  Add h_self (ETree 1) "a" ENil = Panic "Cannot add error: key a exists.".
Proof. split; by vm_compute. Qed.

(** C6, amended.  With a nil [err]: [Set] on a nil parent or on a tree
    returns the parent and leaves the store as it is; [Add] on a nil parent
    does the same; [Add] on a tree that has no entry for [key] returns the
    parent, and the only write is the initialisation of a nil map, so no
    entry is created or changed; [Add] on a tree that has an entry for [key]
    panics with the message that names the key.  On a parent that is not a
    tree, [Set] panics whatever [err] is. *)
Theorem nil_err_is_noop (h : heap) (key : string) :
  Set_ h ENil key ENil = Ret (ENil, h) ∧
  Add h ENil key ENil = Ret (ENil, h) ∧
  (∀ p, is_Some (h !! p) → Set_ h (ETree p) key ENil = Ret (ETree p, h)) ∧
  (∀ p errors, errs h p = Some errors → errors !! key = None →
     ∃ h', Add h (ETree p) key ENil = Ret (ETree p, h') ∧
       lazy_init h h' ∧ same_delimiters h h' ∧
       (∀ q, errs h' q = errs h q) ∧ (initialised h → h' = h)) ∧
  (∀ p errors, errs h p = Some errors → is_Some (errors !! key) →
     Add h (ETree p) key ENil =
       Panic ("Cannot add error: key " +:+ key +:+ " exists.")) ∧
  (∀ msg err, Set_ h (ELeaf msg) key err = Panic not_a_tree).
Proof.
  repeat apply conj; try done.
  - intros p errors Hp Hk. unfold Add. cbn [GetTree].
    destruct (getErrors_Ret h p errors Hp) as (h' & Hg & Hh).
    exists h'. rewrite Hg. osimpl. rewrite Hk. osimpl.
    split; [done|]. split; [done|].
    split; [by eapply getErrors_delimiters|].
    split; [intros q; by apply lazy_init_errs|].
    intros Hi. by apply lazy_init_initialised.
  - intros p errors Hp [e Hk]. unfold Add. cbn [GetTree].
    destruct (getErrors_Ret h p errors Hp) as (h' & Hg & Hh).
    rewrite Hg. osimpl. by rewrite Hk.
Qed.

Lemma nil_err_is_noop_witness :
  ∃ h', Add h_self (ETree 1) "z" ENil = Ret (ETree 1, h') ∧
    ∀ q, errs h' q = errs h_self q.
Proof.
  destruct (nil_err_is_noop h_self "z") as (_ & _ & _ & Hadd & _).
  destruct (Hadd 1%positive {[ "a" := ELeaf "test0"; "b" := ETree 1 ]})
    as (h' & HA & _ & _ & He & _).
  - exact h_self_1.
  - by vm_compute.
  - exists h'. split; [exact HA|exact He].
Defined.

(** ** Which trees a walk enters *)

Section Traced.

Context (range : gmap string error → list (string * error)).

Lemma flatten_loop_traced_erase rec rec' d kp entries acc h tr :
  (∀ h c kp', rec h c kp' = erase (rec' h c kp')) →
  flatten_loop range rec d kp entries acc h =
    erase (flatten_loop_traced range rec' d kp entries acc h tr).
Proof.
  intros Hrec. revert acc h tr.
  induction entries as [|[key err] entries IH]; intros acc h tr; simpl; [done|].
  destruct (GetTree err) as [c|]; [|by apply IH].
  rewrite Hrec. destruct (rec' h c (kp ++ [key])) as [[[sub h1] tr1]| |]; simpl;
    [apply IH|done..].
Qed.

Lemma flatten_traced_erase fuel h t d v kp :
  flatten range fuel h t d v kp = erase (flatten_traced range fuel h t d v kp).
Proof.
  revert h t v kp. induction fuel as [|fuel IH]; intros h t v kp; simpl; [done|].
  case_bool_decide; [done|].
  destruct (getErrors h t) as [[errors h1]| |]; simpl; [|done..].
  apply flatten_loop_traced_erase. intros h2 c kp'. apply IH.
Qed.

Lemma on_path_extend v t entry :
  t ∉ v → on_path (v ++ [t]) entry →
  on_path v entry ∧ t ∈ fst entry ∧ snd entry ≠ t.
Proof.
  intros Hv (Hin & [w Hw] & Hnd).
  assert (t ∈ fst entry) as Ht.
  { rewrite Hw, !elem_of_app. left. right. by apply list_elem_of_singleton. }
  split; [|split; [done|]].
  - split; [done|]. split.
    + exists ([t] ++ w). by rewrite Hw, (assoc_L (++)).
    + intros Hv'. apply Hnd. apply NoDup_app. split; [done|].
      split; [|apply NoDup_singleton].
      intros x Hx ->%list_elem_of_singleton. done.
  - intros Heq. by rewrite Heq in Hin.
Qed.

Lemma flatten_loop_traced_path rec d kp entries acc h tr m h' tr' (P : _ → Prop) :
  (∀ h c kp' m h' tr', rec h c kp' = Ret (m, h', tr') → Forall P tr') →
  flatten_loop_traced range rec d kp entries acc h tr = Ret (m, h', tr') →
  ∃ rest, tr' = tr ++ rest ∧ Forall P rest.
Proof.
  intros Hrec. revert acc h tr.
  induction entries as [|[key err] entries IH]; intros acc h tr; simpl.
  - intros [= <- <- <-]. exists []. by rewrite (right_id_L [] (++)).
  - destruct (GetTree err) as [c|]; [|by apply IH].
    destruct (rec h c (kp ++ [key])) as [[[sub h1] tr1]| |] eqn:Hc; simpl;
      [|done..].
    apply Hrec in Hc. intros (rest & -> & Hrest)%IH.
    exists (tr1 ++ rest). split; [by rewrite (assoc_L (++))|].
    by apply Forall_app.
Qed.

Lemma flatten_traced_path fuel h t d v kp m h' tr :
  flatten_traced range fuel h t d v kp = Ret (m, h', tr) →
  if bool_decide (t ∈ v) then tr = [] ∧ m = ∅
  else ∃ rest, tr = (v, t) :: rest ∧
         Forall (λ entry, on_path v entry ∧ t ∈ fst entry ∧ snd entry ≠ t) rest.
Proof.
  revert h t v kp m h' tr. induction fuel as [|fuel IH];
    intros h t v kp m h' tr; simpl; [done|].
  case_bool_decide as Hv; [by intros [= <- <- <-]|].
  destruct (getErrors h t) as [[errors h1]| |]; simpl; [|done..].
  intros (rest & -> & Hrest)%(flatten_loop_traced_path _ _ _ _ _ _ _ _ _ _
    (λ entry, on_path v entry ∧ t ∈ fst entry ∧ snd entry ≠ t)).
  - by exists rest.
  - intros h2 c kp' m2 h2' tr2 Hc. apply IH in Hc.
    case_bool_decide as Hcv; [destruct Hc as [-> _]; constructor|].
    destruct Hc as (rest & -> & Hrest). constructor.
    + apply on_path_extend; [done|]. unfold on_path. simpl.
      split; [done|]. split; [|done].
      exists []. by rewrite (right_id_L [] (++)).
    + eapply Forall_impl; [exact Hrest|]. intros entry (Hp & _ & _).
      by apply on_path_extend.
Qed.

Lemma filter_none {A} (P : A → Prop) `{∀ x, Decision (P x)} (l : list A) :
  Forall (λ x, ¬ P x) l → filter P l = [].
Proof.
  induction 1 as [|x l Hx _ IH]; [done|]. by rewrite filter_cons_False.
Qed.

Lemma flatten_loop_traced_children rec d kp entries acc h tr m h' tr' v' :
  (∀ h c kp' m h' tr', rec h c kp' = Ret (m, h', tr') →
     (filter (λ entry, fst entry = v') tr').*2 =
       if bool_decide (c ∈ v') then [] else [c]) →
  flatten_loop_traced range rec d kp entries acc h tr = Ret (m, h', tr') →
  ∃ rest, tr' = tr ++ rest ∧
    (filter (λ entry, fst entry = v') rest).*2 =
      filter (λ c, c ∉ v') (children entries).
Proof.
  intros Hrec. revert acc h tr.
  induction entries as [|[key err] entries IH]; intros acc h tr; simpl.
  - intros [= <- <- <-]. exists []. by rewrite (right_id_L [] (++)).
  - unfold children. simpl. destruct (GetTree err) as [c|]; [|by apply IH].
    destruct (rec h c (kp ++ [key])) as [[[sub h1] tr1]| |] eqn:Hc; simpl;
      [|done..].
    apply Hrec in Hc. intros (rest & -> & Hrest)%IH.
    exists (tr1 ++ rest). split; [by rewrite (assoc_L (++))|].
    rewrite filter_app, fmap_app, Hc, Hrest, filter_cons.
    case_bool_decide; by case_decide.
Qed.

Lemma flatten_traced_children fuel h t d v kp m h' tr errors :
  t ∉ v → errs h t = Some errors →
  flatten_traced range (S fuel) h t d v kp = Ret (m, h', tr) →
  ∃ rest, tr = (v, t) :: rest ∧
    (filter (λ entry, fst entry = v ++ [t]) rest).*2 =
      filter (λ c, c ∉ v ++ [t]) (children (range errors)).
Proof.
  intros Hv Ht. simpl. rewrite bool_decide_eq_false_2 by done.
  destruct (getErrors_Ret h t errors Ht) as (h1 & -> & _). simpl.
  apply flatten_loop_traced_children.
  intros h2 c kp' m2 h2' tr2 Hc%flatten_traced_path.
  case_bool_decide as Hcv; [by destruct Hc as [-> _]|].
  destruct Hc as (rest & -> & Hrest).
  rewrite filter_cons_True by done. simpl. f_equal.
  rewrite filter_none; [done|].
  eapply Forall_impl; [exact Hrest|]. simpl.
  intros entry (_ & Hin & _) Heq. rewrite Heq in Hin. done.
Qed.

End Traced.

(** C4 as stated fails: in one call of [Flatten] the shared child is entered
    twice, once for each key that holds it, and its leaf appears under both
    keys. *)
Lemma shared_child_entered_twice :
  flatten_traced map_to_list (enough h_shared) h_shared 1 "." [] [] =
    Ret ({[ "x.l" := ELeaf "e"; "y.l" := ELeaf "e" ]}, h_shared,
         [ ([], 1%positive); ([1%positive], 2%positive);
           ([1%positive], 2%positive) ]) ∧
  Flatten map_to_list h_shared (ETree 1) =
    Ret (Some {[ "x.l" := ELeaf "e"; "y.l" := ELeaf "e" ]}, h_shared).
Proof. split; by vm_compute. Qed.

(** C4, amended.  The visited list is the path of the walk: a call of
    [flatten] that returns has entered the tree it was called on unless that
    tree was already on the path, in which case it has entered nothing and
    returns the empty map; during the call that tree is not entered again,
    every tree entered is different from all trees on its own path, and these
    paths have no duplicates.  Below the tree of the call, every entry that
    holds a tree not on the path is entered, once for each such entry, in
    the order of the loop, so a tree held by two entries is entered twice. *)
Theorem flatten_enters_once_per_path
    (range : gmap string error → list (string * error))
    (fuel : nat) (h : heap) (t : loc) (d : string) (v : list loc)
    (kp : list string) (m : gmap string error) (h' : heap) :
  flatten range fuel h t d v kp = Ret (m, h') →
  ∃ tr, flatten_traced range fuel h t d v kp = Ret (m, h', tr) ∧
    (t ∈ v → tr = [] ∧ m = ∅) ∧
    (t ∉ v →
       ∃ rest, tr = (v, t) :: rest ∧
         Forall (λ entry, t ∈ fst entry ∧ snd entry ≠ t) rest ∧
         Forall (on_path v) tr ∧
         ∀ errors, errs h t = Some errors →
           (filter (λ entry, fst entry = v ++ [t]) rest).*2 =
             filter (λ c, c ∉ v ++ [t]) (children (range errors))).
Proof.
  rewrite flatten_traced_erase. unfold erase.
  destruct (flatten_traced range fuel h t d v kp) as [[[m0 h0] tr]| |] eqn:Hf;
    simpl; [|done..].
  intros [= <- <-]. exists tr. split; [done|].
  pose proof (flatten_traced_path range _ _ _ _ _ _ _ _ _ Hf) as Hpath.
  split.
  - intros Hv. by rewrite bool_decide_eq_true_2 in Hpath.
  - intros Hv. rewrite bool_decide_eq_false_2 in Hpath by done.
    destruct Hpath as (rest & -> & Hrest). exists rest. split; [done|].
    split; [|split].
    + eapply Forall_impl; [exact Hrest|]. by intros entry (_ & ? & ?).
    + constructor.
      * unfold on_path. simpl. split; [done|]. split; [|done].
        exists []. by rewrite (right_id_L [] (++)).
      * eapply Forall_impl; [exact Hrest|]. by intros entry (? & _).
    + intros errors Ht. destruct fuel as [|fuel]; [done|].
      destruct (flatten_traced_children range fuel h t d v kp m0 h0 _ errors
                  Hv Ht Hf) as (rest' & [= <-] & Hch).
      done.
Qed.

Lemma flatten_enters_once_per_path_witness :
  ∃ tr, flatten_traced map_to_list (enough h_shared) h_shared 1 "." [] [] =
          Ret ({[ "x.l" := ELeaf "e"; "y.l" := ELeaf "e" ]}, h_shared, tr) ∧
    ((1%positive) ∉ ([] : list loc) →
       ∃ rest, tr = ([], 1%positive) :: rest ∧
         Forall (λ entry, 1%positive ∈ fst entry ∧ snd entry ≠ 1%positive) rest).
Proof.
  destruct (flatten_enters_once_per_path map_to_list (enough h_shared) h_shared
              1%positive "." [] []
              {[ "x.l" := ELeaf "e"; "y.l" := ELeaf "e" ]} h_shared)
    as (tr & Htr & _ & Hin).
  - by vm_compute.
  - exists tr. split; [exact Htr|]. intros Hv.
    destruct (Hin Hv) as (rest & Hrest & Hall & _). by exists rest.
Defined.


(** * Further properties of the package *)

(** ** Exact lookup *)

Lemma resolves_ext E E' t key path v rest :
  (∀ p, E p = E' p) → resolves E t key path v rest →
  resolves E' t key path v rest.
Proof.
  intros HE. induction 1 as [t errors key path v Ht Hk
                            |t errors key c path0 path1 v rest Ht Hk _ IH].
  - eapply resolves_here; [|done]. by rewrite <- HE.
  - eapply resolves_step; [|done..]. by rewrite <- HE.
Qed.

Lemma get_exact_found E t key path v :
  resolves E t key path v [] →
  ∀ h, (∀ p, errs h p = E p) →
    ∃ h', get h t false key path = Ret (v, h') ∧ lazy_init h h'.
Proof.
  intros Hres. remember [] as rem eqn:Hrem.
  induction Hres as [t errors key path v Ht Hk
                    |t errors key c path0 path1 v rem Ht Hk Hres IH];
    intros h HE; subst.
  - rewrite <- HE in Ht. destruct (getErrors_Ret h t errors Ht) as (h1 & Hg & Hh1).
    simpl. rewrite Hg. simpl. rewrite Hk. eauto.
  - rewrite <- HE in Ht. destruct (getErrors_Ret h t errors Ht) as (h1 & Hg & Hh1).
    simpl. rewrite Hg. simpl. rewrite Hk. simpl.
    destruct (IH eq_refl h1) as (h2 & Hg2 & Hh2).
    { intros p. rewrite <- HE. by apply lazy_init_errs. }
    rewrite Hg2. simpl. rewrite andb_false_r.
    eexists; split; [done|by etrans].
Qed.

Lemma get_exact_sound path h t key v h' :
  get h t false key path = Ret (v, h') → v ≠ ENil →
  resolves (errs h) t key path v [].
Proof.
  revert h t key v h'. induction path as [|path0 path1 IH];
    intros h t key v h'; simpl.
  - pose proof (getErrors_spec h t) as Hg.
    destruct (getErrors h t) as [[errors h1]| |]; simpl; [|done..].
    destruct Hg as [Ht _].
    destruct (errors !! key) as [child|] eqn:Hk; intros [= <- <-] Hv; [|done].
    by eapply resolves_here.
  - pose proof (getErrors_spec h t) as Hg.
    destruct (getErrors h t) as [[errors h1]| |]; simpl; [|done..].
    destruct Hg as [Ht Hh1].
    destruct (errors !! key) as [child|] eqn:Hk; [|by intros [= <- <-]].
    destruct child as [| |c]; simpl; try by intros [= <- <-].
    destruct (get h1 c false path0 path1) as [[childErr h2]| |] eqn:Hget;
      simpl; [|done..].
    rewrite andb_false_r. intros [= <- <-] Hv.
    eapply resolves_step; [done..|].
    eapply resolves_ext; [|by eapply IH].
    intros p. by apply lazy_init_errs.
Qed.

(** X1.  [Get] returns a non-nil error exactly when the whole path can be
    followed to it: a value at the end of the path is returned, and every
    non-nil result is the value at the end of the path.  On an error that is
    not a tree the result is nil. *)
Theorem Get_exact (h : heap) (key : string) (path : list string) :
  (∀ err, GetTree err = None → Get h err key path = Ret (ENil, h)) ∧
  (∀ t v, resolves (errs h) t key path v [] →
     ∃ h', Get h (ETree t) key path = Ret (v, h') ∧ lazy_init h h') ∧
  (∀ t v h', Get h (ETree t) key path = Ret (v, h') → v ≠ ENil →
     resolves (errs h) t key path v []).
Proof.
  split; [|split].
  - intros err Herr. unfold Get. by rewrite Herr.
  - intros t v Hres. by apply (get_exact_found (errs h) t key path v).
  - intros t v h'. apply get_exact_sound.
Qed.

Lemma Get_exact_witness :
  ∃ h', Get h_get (ETree 1) "c" ["a"] = Ret (ELeaf "test1", h').
Proof.
  destruct (Get_exact h_get "c" ["a"]) as (_ & Hfound & _).
  destruct (Hfound 1%positive (ELeaf "test1")) as (h' & HG & _).
  - eapply resolves_step; [by vm_compute|done|].
    eapply resolves_here; [by vm_compute|done].
  - by exists h'.
Defined.

Lemma get_any_extends path h t key v h' :
  get h t false key path = Ret (v, h') → v ≠ ENil →
  get h t true key path = Ret (v, h').
Proof.
  revert h t key v h'. induction path as [|path0 path1 IH];
    intros h t key v h'; simpl; [done|].
  destruct (getErrors h t) as [[errors h1]| |]; simpl; [|done..].
  destruct (errors !! key) as [child|]; [|done].
  destruct child as [| |c]; simpl; try by intros [= <- <-].
  destruct (get h1 c false path0 path1) as [[childErr h2]| |] eqn:Hget;
    simpl; [|done..].
  rewrite andb_false_r. intros [= <- <-] Hv.
  rewrite (IH _ _ _ _ _ Hget Hv). simpl.
  by rewrite bool_decide_eq_false_2.
Qed.

(** X2.  [GetAny] extends [Get]: whenever [Get] finds a non-nil error,
    [GetAny] returns the same error and leaves the same store. *)
Theorem GetAny_extends_Get (h : heap) (err : error) (key : string)
    (path : list string) (v : error) (h' : heap) :
  Get h err key path = Ret (v, h') → v ≠ ENil →
  GetAny h err key path = Ret (v, h').
Proof.
  unfold Get, GetAny. destruct (GetTree err) as [t|].
  - apply get_any_extends.
  - by intros [= <- <-].
Qed.

Lemma GetAny_extends_Get_witness :
  GetAny h_get (ETree 1) "c" ["a"] = Ret (ELeaf "test1", h_get).
Proof.
  apply GetAny_extends_Get; [by vm_compute|done].
Defined.

(** X3.  On a tree, [GetAny] returns nil only when the first key is absent
    from the tree or holds the nil error; whatever the rest of the path is,
    an entry under the first key is enough for a non-nil result. *)
Theorem GetAny_nil_iff (h : heap) (t : loc) (key : string) (path : list string)
    (errors : gmap string error) (r : error) (h' : heap) :
  errs h t = Some errors →
  GetAny h (ETree t) key path = Ret (r, h') →
  r = ENil ↔ errors !! key = None ∨ errors !! key = Some ENil.
Proof.
  intros Ht. unfold GetAny. cbn [GetTree].
  destruct (getErrors_Ret h t errors Ht) as (h1 & Hg & _).
  destruct path as [|path0 path1]; simpl; rewrite Hg; simpl.
  - destruct (errors !! key) as [child|]; intros [= <- <-]; naive_solver.
  - destruct (errors !! key) as [child|]; [|intros [= <- <-]; naive_solver].
    destruct child as [|msg|c]; simpl; try (intros [= <- <-]; naive_solver).
    destruct (get h1 c true path0 path1) as [[childErr h2]| |]; simpl;
      [|done..].
    rewrite andb_true_r. case_bool_decide as Hc; intros [= <- <-];
      naive_solver.
Qed.

Lemma GetAny_nil_iff_witness :
  ENil = ENil ↔
    ({[ "a" := ELeaf "test0"; "c" := ETree 2 ]} : gmap string error) !! "b" = None ∨
    ({[ "a" := ELeaf "test0"; "c" := ETree 2 ]} : gmap string error) !! "b" =
      Some ENil.
Proof.
  apply (GetAny_nil_iff h_get 1%positive "b" ["x"] _ ENil h_get);
    by vm_compute.
Defined.

(** ** [Set] and [Add] on a tree *)

Lemma alter_lookup_insert (h : heap) p tr f :
  h !! p = Some tr → alter f p h = <[p := f tr]> h.
Proof.
  intros Hp. apply map_eq. intros q. rewrite lookup_alter.
  destruct (decide (p = q)) as [<-|Hne].
  - by rewrite lookup_insert_eq, Hp.
  - by rewrite lookup_insert_ne.
Qed.

Lemma store_entry_insert h p tr key err :
  h !! p = Some tr →
  store_entry h p key err =
    <[p := mkTree (Some (<[key := err]> (default ∅ (Errors tr))))
                  (Delimiter tr) (Formatter_ tr)]> h.
Proof. intros Hp. unfold store_entry. by rewrite (alter_lookup_insert h p tr). Qed.

Lemma getErrors_initialised h p tr errors :
  h !! p = Some tr → Errors tr = Some errors → getErrors h p = Ret (errors, h).
Proof. intros Hp He. unfold getErrors. by rewrite Hp, He. Qed.

Lemma set_tree h p tr key err :
  h !! p = Some tr → err ≠ ENil →
  set h (Some p) key err = Ret (Some p, store_entry h p key err).
Proof.
  intros Hp Herr. rewrite (store_entry_insert h p tr) by done.
  assert (getErrors h p ≫= (λ '(errors, h),
            Ret (Some p,
                 alter (λ tr, mkTree (Some (<[key := err]> errors))
                                (Delimiter tr) (Formatter_ tr)) p h)) =
          Ret (Some p,
               <[p := mkTree (Some (<[key := err]> (default ∅ (Errors tr))))
                             (Delimiter tr) (Formatter_ tr)]> h)) as Hset.
  { unfold getErrors. rewrite Hp. destruct (Errors tr) as [errors|]; simpl.
    - by rewrite (alter_lookup_insert h p tr).
    - by rewrite alter_insert_eq. }
  unfold set. by destruct err.
Qed.

Lemma Set_tree h p tr key err :
  h !! p = Some tr → err ≠ ENil →
  Set_ h (ETree p) key err = Ret (ETree p, store_entry h p key err).
Proof.
  intros Hp Herr. unfold Set_. cbn [GetTree]. simpl.
  by rewrite (set_tree h p tr).
Qed.

Lemma store_entry_lookup h p tr key err :
  h !! p = Some tr →
  store_entry h p key err !! p =
    Some (mkTree (Some (<[key := err]> (default ∅ (Errors tr))))
                 (Delimiter tr) (Formatter_ tr)).
Proof.
  intros Hp. rewrite (store_entry_insert h p tr) by done.
  apply lookup_insert_eq.
Qed.

Lemma store_entry_other h p key err q :
  q ≠ p → store_entry h p key err !! q = h !! q.
Proof. intros Hne. unfold store_entry. by rewrite lookup_alter_ne. Qed.

Lemma Get_top h p tr errors key :
  h !! p = Some tr → Errors tr = Some errors →
  Get h (ETree p) key [] = Ret (default ENil (errors !! key), h).
Proof.
  intros Hp He. unfold Get. cbn [GetTree]. simpl.
  rewrite (getErrors_initialised h p tr errors) by done. simpl.
  by destruct (errors !! key).
Qed.

(** X4.  [Set] with a non-nil error on a tree stores the error under the
    key and returns the tree: a following [Get] of that key returns the
    error, the other keys of the tree read as before, the delimiter and the
    formatter of the tree are kept, and no other tree of the store is
    touched. *)
Theorem Set_then_Get (h : heap) (p : loc) (tr : Tree) (key : string)
    (err : error) :
  h !! p = Some tr → err ≠ ENil →
  ∃ h' tr',
    Set_ h (ETree p) key err = Ret (ETree p, h') ∧
    Get h' (ETree p) key [] = Ret (err, h') ∧
    (∀ key', key' ≠ key →
       Get h' (ETree p) key' [] =
         Ret (default ENil (default ∅ (Errors tr) !! key'), h')) ∧
    h' !! p = Some tr' ∧
    Delimiter tr' = Delimiter tr ∧ Formatter_ tr' = Formatter_ tr ∧
    (∀ q, q ≠ p → h' !! q = h !! q).
Proof.
  intros Hp Herr. exists (store_entry h p key err). eexists.
  split; [by apply (Set_tree h p tr)|].
  pose proof (store_entry_lookup h p tr key err Hp) as Hp'.
  split; [|split; [|split; [exact Hp'|]]].
  - rewrite (Get_top _ p _ _ key Hp' eq_refl). by rewrite lookup_insert_eq.
  - intros key' Hne. rewrite (Get_top _ p _ _ key' Hp' eq_refl).
    by rewrite lookup_insert_ne.
  - split; [done|]. split; [done|]. intros q Hq. by apply store_entry_other.
Qed.

Lemma Set_then_Get_witness :
  ∃ h', Set_ h_get (ETree 1) "b" (ELeaf "new") = Ret (ETree 1, h') ∧
    Get h' (ETree 1) "b" [] = Ret (ELeaf "new", h').
Proof.
  destruct (Set_then_Get h_get 1%positive
              (mkTree (Some {[ "a" := ELeaf "test0"; "c" := ETree 2 ]}) "." None)
              "b" (ELeaf "new")) as (h' & tr' & HS & HG & _).
  - by vm_compute.
  - done.
  - exists h'. split; [exact HS|exact HG].
Defined.

(** X5.  [Set] replaces: setting a key twice leaves the store that the
    second call alone would leave, and two calls on different keys give the
    same store in either order. *)
Theorem Set_overwrites_and_commutes (h : heap) (p : loc) (tr : Tree)
    (key1 key2 : string) (err1 err2 : error) :
  h !! p = Some tr → err1 ≠ ENil → err2 ≠ ENil →
  ('(parent, h1) ← Set_ h (ETree p) key1 err1; Set_ h1 parent key1 err2) =
    Set_ h (ETree p) key1 err2 ∧
  (key1 ≠ key2 →
   ('(parent, h1) ← Set_ h (ETree p) key1 err1; Set_ h1 parent key2 err2) =
   ('(parent, h1) ← Set_ h (ETree p) key2 err2; Set_ h1 parent key1 err1)).
Proof.
  intros Hp H1 H2.
  assert (∀ k e, e ≠ ENil →
            Set_ h (ETree p) k e = Ret (ETree p, store_entry h p k e)) as HS.
  { intros k e He. by apply (Set_tree h p tr). }
  assert (∀ k e k' e', e' ≠ ENil →
            Set_ (store_entry h p k e) (ETree p) k' e' =
              Ret (ETree p,
                   <[p := mkTree (Some (<[k' := e']> (<[k := e]>
                                    (default ∅ (Errors tr)))))
                                 (Delimiter tr) (Formatter_ tr)]> h)) as HS2.
  { intros k e k' e' He'.
    rewrite (Set_tree _ p _ k' e' (store_entry_lookup h p tr k e Hp) He').
    rewrite (store_entry_insert _ p _ k' e' (store_entry_lookup h p tr k e Hp)).
    simpl. rewrite (store_entry_insert h p tr) by done.
    by rewrite insert_insert_eq. }
  split.
  - rewrite (HS key1 err1 H1). simpl. rewrite HS2 by done.
    rewrite (HS key1 err2 H2), (store_entry_insert h p tr) by done.
    by rewrite insert_insert_eq.
  - intros Hne. rewrite (HS key1 err1 H1), (HS key2 err2 H2). simpl.
    rewrite (HS2 key1 err1 key2 err2 H2), (HS2 key2 err2 key1 err1 H1).
    by rewrite (insert_insert_ne _ key2 key1).
Qed.

Lemma Set_overwrites_and_commutes_witness :
  ('(parent, h1) ← Set_ h_get (ETree 1) "k" (ELeaf "one");
   Set_ h1 parent "k" (ELeaf "two")) =
  Set_ h_get (ETree 1) "k" (ELeaf "two").
Proof.
  apply (Set_overwrites_and_commutes h_get 1%positive
           (mkTree (Some {[ "a" := ELeaf "test0"; "c" := ETree 2 ]}) "." None)
           "k" "k" (ELeaf "one") (ELeaf "two")); [by vm_compute|done..].
Defined.

(** X6.  [Add] behaves like [Set] where its guard does not fire: on a nil
    parent for every error, and on a tree that has no entry for the key for
    every non-nil error, the two calls return the same result and leave the
    same store. *)
Theorem Add_like_Set (h : heap) (key : string) :
  (∀ err, Add h ENil key err = Set_ h ENil key err) ∧
  (∀ p errors err,
     errs h p = Some errors → errors !! key = None → err ≠ ENil →
     Add h (ETree p) key err = Set_ h (ETree p) key err).
Proof.
  split; [done|]. intros p errors err Hp Hk Herr.
  unfold errs in Hp. destruct (h !! p) as [tr|] eqn:Htr; [|done].
  injection Hp as <-. rewrite (Set_tree h p tr) by done.
  unfold Add. cbn [GetTree]. unfold getErrors. rewrite Htr.
  destruct (Errors tr) as [errors|] eqn:He; simpl in *; rewrite Hk; simpl.
  - by rewrite (set_tree h p tr).
  - rewrite (set_tree _ p _ key err (lookup_insert_eq _ _ _) Herr). simpl.
    rewrite (store_entry_insert _ p _ key err (lookup_insert_eq _ _ _)).
    rewrite (store_entry_insert h p tr) by done. simpl.
    by rewrite insert_insert_eq, He.
Qed.

Lemma Add_like_Set_witness :
  Add h_get (ETree 1) "b" (ELeaf "new") = Set_ h_get (ETree 1) "b" (ELeaf "new").
Proof.
  apply (Add_like_Set h_get "b" ) with
    (errors := {[ "a" := ELeaf "test0"; "c" := ETree 2 ]});
    [by vm_compute|by vm_compute|done].
Defined.

(** X7.  After an [Add] of a non-nil error has returned, every [Add] on the
    returned tree with the same key panics with the message that names the
    key, whatever the new error is, the nil error included. *)
Theorem Add_twice_panics (h : heap) (parent : error) (key : string)
    (err r : error) (h' : heap) :
  Add h parent key err = Ret (r, h') → err ≠ ENil →
  ∀ err', Add h' r key err' =
    Panic ("Cannot add error: key " +:+ key +:+ " exists.").
Proof.
  intros HA Herr err'.
  assert (∃ p errors, r = ETree p ∧ getErrors h' p = Ret (errors, h') ∧
                      errors !! key = Some err) as (p & errors & -> & Hg & Hk).
  { destruct parent as [|msg|p].
    - unfold Add in HA. cbn [GetTree] in HA. simpl in HA.
      rewrite set_new in HA by done. simpl in HA. injection HA as <- <-.
      eexists _, _. split; [done|]. split.
      + eapply getErrors_initialised; [apply lookup_insert_eq|done].
      + apply lookup_singleton_eq.
    - unfold Add in HA. cbn [GetTree] in HA. simpl in HA.
      rewrite set_new in HA by done. simpl in HA. injection HA as <- <-.
      eexists _, _. split; [done|]. split.
      + eapply getErrors_initialised; [apply lookup_insert_eq|done].
      + apply lookup_singleton_eq.
    - unfold Add in HA. cbn [GetTree] in HA.
      pose proof (getErrors_spec h p) as Hspec.
      destruct (getErrors h p) as [[errors h1]| |]; simpl in HA; [|done..].
      destruct Hspec as [He Hh1].
      destruct (errors !! key); simpl in HA; [done|].
      assert (is_Some (h1 !! p)) as [tr1 Htr1].
      { apply (lazy_init_lookup h h1 p Hh1). unfold errs in He.
        destruct (h !! p); [eauto|done]. }
      rewrite (set_tree h1 p tr1) in HA by done. simpl in HA.
      injection HA as <- <-. eexists _, _. split; [done|]. split.
      + eapply getErrors_initialised; [by apply store_entry_lookup|done].
      + apply lookup_insert_eq. }
  unfold Add. cbn [GetTree]. rewrite Hg. simpl. by rewrite Hk.
Qed.

Lemma Add_twice_panics_witness :
  Add {[ 1%positive :=
           mkTree (Some {[ "test" := ELeaf "test error" ]}) ":" (Some FSimple) ]}
      (ETree 1) "test" (ELeaf "key re-used") =
    Panic "Cannot add error: key test exists.".
Proof.
  apply (Add_twice_panics ∅ ENil "test" (ELeaf "test error"));
    [by vm_compute|done].
Defined.

(** ** Flattening a tree of leaves and a new tree *)

Section FlattenLeaves.

Context (range : gmap string error → list (string * error)).
Hypothesis range_perm : ∀ m, range m ≡ₚ map_to_list m.

Lemma flat_loop_leaves rec d entries acc :
  (∀ k e, (k, e) ∈ entries → GetTree e = None) →
  ∃ m, flat_loop range rec d entries acc = Ret m.
Proof.
  revert acc. induction entries as [|[key err] entries IH]; intros acc Hl;
    simpl; [eauto|].
  rewrite (Hl key err) by left. apply IH. intros k e Hin. apply (Hl k e).
  by right.
Qed.

Lemma flat_leaves_only h p d errors :
  errs h p = Some errors →
  (∀ k e, errors !! k = Some e → GetTree e = None) →
  flat range (enough h) (errs h) p d [] = Ret errors.
Proof.
  intros Hp Hl.
  destruct (flat_loop_leaves
              (λ c, flat range (size h) (errs h) c d ([] ++ [p]))
              d (range errors) ∅) as [m Hm].
  { intros k e Hin%(range_elem range range_perm). by eapply Hl. }
  assert (flat range (enough h) (errs h) p d [] = Ret m) as Hflat.
  { unfold enough. simpl. by rewrite Hp. }
  rewrite Hflat. f_equal.
  apply (flat_spec range range_perm) in Hflat as [Hs Hc].
  assert (∀ K e, m !! K = Some e → errors !! K = Some e) as Hsub.
  { intros K e (path & Hpath & ->)%Hs.
    inversion Hpath as [? ? errors' k ? _ Ht Hk He
                       |? ? errors' k c p' ? _ Ht Hk Hp']; subst;
      rewrite Hp in Ht; injection Ht as <-; [done|].
    by apply Hl in Hk. }
  apply map_eq. intros K. destruct (m !! K) as [e|] eqn:HK.
  - symmetry. by apply Hsub.
  - destruct (errors !! K) as [e|] eqn:HK'; [|done].
    destruct (Hc [K] e) as [e' He'].
    { eapply leaf_here; [by intros ?%elem_of_nil|done..|by eapply Hl]. }
    change (join d [K]) with K in He'. congruence.
Qed.

Lemma Flatten_leaves_only h p errors :
  errs h p = Some errors →
  (∀ k e, errors !! k = Some e → GetTree e = None) →
  ∃ h', Flatten range h (ETree p) = Ret (Some errors, h') ∧ lazy_init h h'.
Proof.
  intros Hp Hl. pose proof (Flatten_Flat range h (ETree p)) as Hag.
  unfold agrees, Flat in Hag. cbn [GetTree] in Hag.
  assert (is_Some (delim h p)) as [d Hd].
  { unfold errs, delim in *. destruct (h !! p); [eauto|done]. }
  rewrite Hd, (flat_leaves_only h p d errors) in Hag by done. osimpl.
  destruct (Flatten range h (ETree p)) as [[om h']| |]; try done.
  destruct Hag as [-> Hh]. eauto.
Qed.

Lemma flatten_loop_leaves rec d kp entries acc h :
  (∀ k e, (k, e) ∈ entries → GetTree e = None) →
  ∃ m, flatten_loop range rec d kp entries acc h = Ret (m, h).
Proof.
  revert acc. induction entries as [|[key err] entries IH]; intros acc Hl;
    simpl; [eauto|].
  rewrite (Hl key err) by left. apply IH. intros k e Hin. apply (Hl k e).
  by right.
Qed.

Lemma flatten_leaves_only h p tr errors d kp :
  h !! p = Some tr → Errors tr = Some errors →
  (∀ k e, errors !! k = Some e → GetTree e = None) →
  flatten range (enough h) h p d [] kp = Ret (errors, h).
Proof.
  intros Hp He Hl.
  assert (errs h p = Some errors) as Hp'.
  { unfold errs. rewrite Hp. simpl. by rewrite He. }
  pose proof (flatten_flat range (enough h) h p d [] kp) as Hag.
  rewrite (flat_leaves_only h p d errors) in Hag by done.
  destruct (flatten_loop_leaves
              (λ h0 c kp', flatten range (size h) h0 c d ([] ++ [p]) kp')
              d kp (range errors) ∅ h) as [m Hm].
  { intros k e Hin%(range_elem range range_perm). by eapply Hl. }
  assert (flatten range (enough h) h p d [] kp = Ret (m, h)) as Hf.
  { unfold enough. simpl. rewrite (getErrors_initialised h p tr errors) by done.
    simpl. exact Hm. }
  rewrite Hf in *. unfold agrees in Hag. by destruct Hag as [-> _].
Qed.

End FlattenLeaves.

(** X8.  A tree all of whose entries are leaves flattens to its own map,
    entry for entry; in particular a tree without entries, the zero value
    included, flattens to the empty map and not to the nil map.  [Keys] then
    returns the keys of the tree itself, sorted. *)
Theorem Flatten_of_leaves
    (range : gmap string error → list (string * error))
    (range_perm : ∀ m, range m ≡ₚ map_to_list m)
    (h : heap) (p : loc) (errors : gmap string error) :
  errs h p = Some errors →
  (∀ k e, errors !! k = Some e → GetTree e = None) →
  ∃ h',
    Flatten range h (ETree p) = Ret (Some errors, h') ∧
    Keys range h (ETree p) =
      Ret (Some (sort_Strings (map_to_list errors).*1), h') ∧
    lazy_init h h' ∧
    (∀ tr, h !! p = Some tr → Errors tr ≠ None → Delimiter tr ≠ "" → h' = h).
Proof.
  intros Hp Hl.
  destruct (Flatten_leaves_only range range_perm h p errors Hp Hl)
    as (h' & HF & Hh).
  exists h'. split; [done|]. split; [|split; [done|]].
  - rewrite Keys_Flatten, HF. simpl.
    by rewrite (sorted_range_keys range range_perm).
  - intros tr Htr He Hd. unfold Flatten in HF. cbn [GetTree] in HF.
    unfold getDelimiter in HF. rewrite Htr in HF.
    rewrite decide_False in HF by done. osimpl.
    unfold errs in Hp. rewrite Htr in Hp. simpl in Hp.
    destruct (Errors tr) as [errors'|] eqn:He'; [|done].
    simpl in Hp. injection Hp as ->.
    rewrite (flatten_leaves_only range range_perm h p tr errors _ _ Htr He' Hl)
      in HF.
    osimpl. by injection HF as <-.
Qed.

Lemma Flatten_of_leaves_witness :
  (∀ m : gmap string error, map_to_list m ≡ₚ map_to_list m) ∧
  ∃ h', Flatten map_to_list h_zero (ETree 1) = Ret (Some ∅, h').
Proof.
  split; [intros m; reflexivity|].
  destruct (Flatten_of_leaves map_to_list (λ m, Permutation_refl _)
              h_zero 1%positive ∅) as (h' & HF & _).
  - by vm_compute.
  - intros k e Hk. by rewrite lookup_empty in Hk.
  - by exists h'.
Defined.

(** X9.  [Set] and [Add] on a nil parent with a non-nil error build a new
    tree: it lives at a location that the store did not use, it has the
    default delimiter and the simple formatter, its only entry is the error
    under the key, and every tree of the store is left as it was.  When the
    error is a leaf, the new tree flattens to that one entry. *)
Theorem Set_creates_tree (h : heap) (key : string) (err : error) :
  err ≠ ENil →
  ∃ p h',
    Set_ h ENil key err = Ret (ETree p, h') ∧
    Add h ENil key err = Ret (ETree p, h') ∧
    h !! p = None ∧
    h' !! p = Some (mkTree (Some {[ key := err ]}) DefaultDelimiter
                      (Some FSimple)) ∧
    (∀ q, q ≠ p → h' !! q = h !! q) ∧
    (∀ range, (∀ m, range m ≡ₚ map_to_list m) → GetTree err = None →
       Flatten range h' (ETree p) = Ret (Some {[ key := err ]}, h')).
Proof.
  intros Herr. eexists (fresh (dom h)), _.
  assert (h !! fresh (dom h) = None) as Hfresh.
  { apply not_elem_of_dom, is_fresh. }
  split; [|split; [|split; [exact Hfresh|split; [|split]]]].
  - unfold Set_. cbn [GetTree]. simpl. by rewrite set_new.
  - unfold Add. cbn [GetTree]. simpl. by rewrite set_new.
  - apply lookup_insert_eq.
  - intros q Hq. by rewrite lookup_insert_ne.
  - intros range range_perm Hleaf.
    set (h' := <[fresh (dom h) := _]> h).
    assert (h' !! fresh (dom h) =
              Some (mkTree (Some {[ key := err ]}) DefaultDelimiter
                      (Some FSimple))) as Hp' by apply lookup_insert_eq.
    unfold Flatten. cbn [GetTree]. unfold getDelimiter. rewrite Hp'.
    cbn [Delimiter]. rewrite decide_False by done. osimpl.
    rewrite (flatten_leaves_only range range_perm h' _ _ {[ key := err ]}
               _ _ Hp' eq_refl); [done|].
    by intros k e [_ <-]%lookup_singleton_Some.
Qed.

Lemma Set_creates_tree_witness :
  ∃ p h', Set_ h_get ENil "k" (ELeaf "e") = Ret (ETree p, h') ∧
    h_get !! p = None ∧
    Flatten map_to_list h' (ETree p) = Ret (Some {[ "k" := ELeaf "e" ]}, h').
Proof.
  destruct (Set_creates_tree h_get "k" (ELeaf "e")) as
    (p & h' & HS & _ & Hfresh & _ & _ & HF); [done|].
  exists p, h'. split; [exact HS|]. split; [exact Hfresh|].
  apply HF; [intros m; reflexivity|reflexivity].
Defined.

(** ** [ErrorOrNil] *)

Lemma Set_Ret_entry h parent key err r h' :
  Set_ h parent key err = Ret (r, h') → err ≠ ENil →
  ∃ p tr errors, r = ETree p ∧ h' !! p = Some tr ∧
    Errors tr = Some errors ∧ errors !! key = Some err.
Proof.
  intros HS Herr. destruct parent as [|msg|p]; [| done |].
  - unfold Set_ in HS. cbn [GetTree] in HS. simpl in HS.
    rewrite set_new in HS by done. simpl in HS. injection HS as <- <-.
    eexists _, _, _. split; [done|]. split; [apply lookup_insert_eq|].
    split; [done|]. apply lookup_singleton_eq.
  - destruct (h !! p) as [tr|] eqn:Hp.
    + rewrite (Set_tree h p tr) in HS by done. injection HS as <- <-.
      eexists _, _, _. split; [done|].
      split; [by apply store_entry_lookup|]. split; [done|].
      apply lookup_insert_eq.
    + unfold Set_, set, getErrors in HS. cbn [GetTree] in HS. simpl in HS.
      destruct err; try done; by rewrite Hp in HS.
Qed.

Lemma Add_Ret_entry h parent key err r h' :
  Add h parent key err = Ret (r, h') → err ≠ ENil →
  ∃ p tr errors, r = ETree p ∧ h' !! p = Some tr ∧
    Errors tr = Some errors ∧ errors !! key = Some err.
Proof.
  intros HA Herr. destruct parent as [|msg|p].
  - rewrite (proj1 (Add_like_Set h key)) in HA. by eapply Set_Ret_entry.
  - unfold Add in HA. cbn [GetTree] in HA. simpl in HA.
    rewrite set_new in HA by done. simpl in HA. injection HA as <- <-.
    eexists _, _, _. split; [done|]. split; [apply lookup_insert_eq|].
    split; [done|]. apply lookup_singleton_eq.
  - unfold Add in HA. cbn [GetTree] in HA.
    pose proof (getErrors_spec h p) as Hspec.
    destruct (getErrors h p) as [[errors h1]| |]; simpl in HA; [|done..].
    destruct Hspec as [He Hh1].
    destruct (errors !! key); simpl in HA; [done|].
    assert (is_Some (h1 !! p)) as [tr1 Htr1].
    { apply (lazy_init_lookup h h1 p Hh1). unfold errs in He.
      destruct (h !! p); [eauto|done]. }
    rewrite (set_tree h1 p tr1) in HA by done. simpl in HA.
    injection HA as <- <-. eexists _, _, _. split; [done|].
    split; [by apply store_entry_lookup|]. split; [done|].
    apply lookup_insert_eq.
Qed.

(** X10.  Whatever the parent was, when [Set] or [Add] returns from storing
    a non-nil error, the result is a tree that holds the error under the
    key: [Get] of the key on the result returns the error, and [ErrorOrNil]
    of the result is the result itself, not nil. *)
Theorem stored_error_is_found (h : heap) (parent : error) (key : string)
    (err r : error) (h' : heap) :
  Set_ h parent key err = Ret (r, h') ∨ Add h parent key err = Ret (r, h') →
  err ≠ ENil →
  ∃ p, r = ETree p ∧
    Get h' r key [] = Ret (err, h') ∧
    ErrorOrNil h' (Some p) = Ret r.
Proof.
  intros Hmut Herr.
  assert (∃ p tr errors, r = ETree p ∧ h' !! p = Some tr ∧
            Errors tr = Some errors ∧ errors !! key = Some err)
    as (p & tr & errors & -> & Hp & He & Hk).
  { destruct Hmut; [by eapply Set_Ret_entry|by eapply Add_Ret_entry]. }
  exists p. split; [done|]. split.
  - rewrite (Get_top h' p tr errors key Hp He). by rewrite Hk.
  - unfold ErrorOrNil. rewrite Hp, He. simpl.
    rewrite bool_decide_eq_false_2; [done|].
    intros Hsz%map_size_empty_iff. by rewrite Hsz, lookup_empty in Hk.
Qed.

Lemma stored_error_is_found_witness :
  ∃ p, ETree 1 = ETree p ∧
    ErrorOrNil {[ 1%positive :=
                    mkTree (Some {[ "a" := ELeaf "test" ]}) ":" (Some FSimple) ]}
      (Some p) = Ret (ETree 1).
Proof.
  destruct (stored_error_is_found ∅ ENil "a" (ELeaf "test") (ETree 1)
              {[ 1%positive :=
                   mkTree (Some {[ "a" := ELeaf "test" ]}) ":" (Some FSimple) ]})
    as (p & Hr & _ & HE).
  - left. by vm_compute.
  - done.
  - exists p. split; [exact Hr|exact HE].
Defined.

Lemma h_hollow_1 : errs h_hollow 1 = Some {[ "sub" := ETree 2 ]}.
Proof. by vm_compute. Qed.

Lemma h_hollow_2 : errs h_hollow 2 = Some ∅.
Proof. by vm_compute. Qed.

Lemma h_hollow_no_leaf path e : ¬ leaf_at (errs h_hollow) [] 1 path e.
Proof.
  inversion 1 as [? ? errors k ? _ Ht Hk He|? ? errors k c p ? _ Ht Hk Hp];
    subst; rewrite h_hollow_1 in Ht; injection Ht as <-;
    apply lookup_singleton_Some in Hk as [<- Hk]; subst; [done|].
  injection Hk as <-.
  inversion Hp as [? ? errors k ? _ Ht Hk He|? ? errors k c p' ? _ Ht Hk Hp'];
    subst; rewrite h_hollow_2 in Ht; injection Ht as <-;
    by rewrite lookup_empty in Hk.
Qed.

Lemma h_hollow_closed : closed h_hollow.
Proof.
  intros p errors k c Hp Hk. unfold errs, h_hollow in Hp.
  destruct (decide (p = 1%positive)) as [->|Hne1].
  - rewrite lookup_insert_eq in Hp. injection Hp as <-. simpl in Hk.
    apply lookup_singleton_Some in Hk as [_ [= <-]].
    unfold h_hollow. rewrite lookup_insert_ne by done.
    rewrite lookup_singleton_eq. eauto.
  - rewrite lookup_insert_ne in Hp by done.
    destruct (decide (p = 2%positive)) as [->|Hne2].
    + rewrite lookup_singleton_eq in Hp. injection Hp as <-. simpl in Hk.
      by rewrite lookup_empty in Hk.
    + by rewrite lookup_singleton_ne in Hp.
Qed.

Lemma h_hollow_initialised : initialised h_hollow.
Proof.
  intros p tr. unfold h_hollow.
  intros [[<- <-]|[_ [<- <-]%lookup_singleton_Some]]%lookup_insert_Some; done.
Qed.

(** X11.  [ErrorOrNil] is nil for the nil pointer and for a tree without
    entries, the zero value and a tree from [New] included, and is the tree
    otherwise.  A tree that flattens to at least one entry is therefore never
    turned into nil; the converse does not hold, as a tree that only holds
    trees without entries flattens to the empty map and is still returned. *)
Theorem ErrorOrNil_and_Flatten
    (range : gmap string error → list (string * error))
    (range_perm : ∀ m, range m ≡ₚ map_to_list m) (h : heap) :
  ErrorOrNil h None = Ret ENil ∧
  ErrorOrNil (New h).2 (Some (New h).1) = Ret ENil ∧
  (∀ p errors, errs h p = Some errors →
     ErrorOrNil h (Some p) =
       Ret (if decide (errors = ∅) then ENil else ETree p)) ∧
  (∀ p m h', Flatten range h (ETree p) = Ret (Some m, h') → m ≠ ∅ →
     ErrorOrNil h (Some p) = Ret (ETree p)) ∧
  (ErrorOrNil h_hollow (Some 1%positive) = Ret (ETree 1) ∧
   Flatten range h_hollow (ETree 1) = Ret (Some ∅, h_hollow)).
Proof.
  assert (∀ p errors, errs h p = Some errors →
            ErrorOrNil h (Some p) =
              Ret (if decide (errors = ∅) then ENil else ETree p)) as Hspec.
  { intros p errors Hp. unfold ErrorOrNil, errs in *.
    destruct (h !! p) as [tr|]; [|done]. injection Hp as <-.
    case_bool_decide as Hsz; case_decide as He; try done.
    - by apply map_size_empty_iff in Hsz.
    - by rewrite He, map_size_empty in Hsz. }
  split; [done|]. split; [|split; [exact Hspec|split]].
  - unfold New, ErrorOrNil. simpl. by rewrite lookup_insert_eq.
  - intros p m h' (d & m' & [= <-] & _ & Hm & _)%Flatten_Ret Hne.
    apply (flat_spec range range_perm) in Hm as [Hs _].
    destruct (map_choose m Hne) as (K & e & HK).
    destruct (Hs K e HK) as (path & Hpath & _).
    inversion Hpath as [? ? errors k ? _ Ht Hk He
                       |? ? errors k c p' ? _ Ht Hk Hp']; subst;
      rewrite (Hspec p errors Ht); rewrite decide_False; try done;
      intros ->; by rewrite lookup_empty in Hk.
  - split; [by vm_compute|].
    destruct (Flatten_closed range range_perm h_hollow 1 h_hollow_closed)
      as (m & h' & HF).
    { unfold h_hollow. rewrite lookup_insert_eq. eauto. }
    rewrite HF. apply Flatten_Ret in HF as (d & m' & [= <-] & _ & Hm & Hh).
    rewrite (lazy_init_initialised h_hollow h' h_hollow_initialised Hh).
    apply (flat_spec range range_perm) in Hm as [Hs _].
    do 3 f_equal. apply map_empty. intros K.
    destruct (m !! K) as [e|] eqn:HK; [|done].
    destruct (Hs K e HK) as (path & Hpath & _).
    by apply h_hollow_no_leaf in Hpath.
Qed.

Lemma ErrorOrNil_and_Flatten_witness :
  (∀ m : gmap string error, map_to_list m ≡ₚ map_to_list m) ∧
  ErrorOrNil h_self (Some 1%positive) = Ret (ETree 1).
Proof.
  split; [intros m; reflexivity|].
  destruct (ErrorOrNil_and_Flatten map_to_list (λ m, Permutation_refl _) h_self)
    as (_ & _ & _ & Hnonempty & _).
  apply (Hnonempty 1%positive {[ "a" := ELeaf "test0" ]} h_self).
  - by vm_compute.
  - intros Hm. apply (f_equal (λ m : gmap string error, m !! "a")) in Hm.
    by rewrite lookup_singleton_eq, lookup_empty in Hm.
Defined.

(** ** [WrappedErrors] *)

Lemma fill_wrapped_app errors keys pre suf :
  length suf = length keys →
  fill_wrapped errors (length pre) keys (pre ++ suf) =
    Ret (pre ++ ((λ key, default ENil (errors !! key)) <$> keys)).
Proof.
  revert pre suf. induction keys as [|key keys IH]; intros pre suf Hlen.
  - destruct suf; [|done]. done.
  - destruct suf as [|x suf]; [done|]. simpl in Hlen. simpl.
    rewrite bool_decide_eq_true_2 by (rewrite length_app; simpl; lia).
    rewrite insert_app_r_alt by done. rewrite Nat.sub_diag. simpl.
    replace (S (length pre)) with (length (pre ++ [default ENil (errors !! key)]))
      by (rewrite length_app; simpl; lia).
    rewrite (cons_middle _ pre suf), (assoc_L (++)).
    rewrite IH by lia. by rewrite <- (assoc_L (++)).
Qed.

(** X12.  [WrappedErrors] on a tree never indexes outside its slice and
    returns one value for each entry of the tree: the values of the entries
    in ascending order of their keys, whatever the order of the map; nested
    trees are returned as they are stored, not flattened. *)
Theorem WrappedErrors_in_key_order
    (range : gmap string error → list (string * error))
    (range_perm : ∀ m, range m ≡ₚ map_to_list m)
    (h : heap) (p : loc) (errors : gmap string error) :
  errs h p = Some errors →
  ∃ keys h',
    WrappedErrors range h p =
      Ret ((λ key, default ENil (errors !! key)) <$> keys, h') ∧
    Sorted String.le keys ∧ NoDup keys ∧
    (∀ k, k ∈ keys ↔ is_Some (errors !! k)) ∧
    length keys = size errors ∧
    lazy_init h h'.
Proof.
  intros Hp. destruct (getErrors_Ret h p errors Hp) as (h' & Hg & Hh).
  exists (sort_Strings (range errors).*1), h'.
  destruct (sort_Strings_spec (range errors).*1) as [Hs Hperm].
  assert (length (sort_Strings (range errors).*1) = size errors) as Hlen.
  { by rewrite Hperm, length_fmap, (range_length range range_perm). }
  split; [|split; [done|split; [|split; [|done]]]].
  - unfold WrappedErrors. rewrite Hg. simpl.
    pose proof (fill_wrapped_app errors (sort_Strings (range errors).*1) []
                  (replicate (size errors) ENil)) as Hfill.
    simpl in Hfill. rewrite Hfill; [done|]. by rewrite length_replicate.
  - rewrite Hperm. by apply range_NoDup.
  - intros k. rewrite Hperm. by apply range_keys.
Qed.

Lemma WrappedErrors_in_key_order_witness :
  (∀ m : gmap string error, map_to_list m ≡ₚ map_to_list m) ∧
  ∃ keys h', WrappedErrors map_to_list h_get 1 =
    Ret ((λ key, default ENil
            (({[ "a" := ELeaf "test0"; "c" := ETree 2 ]} : gmap string error)
               !! key)) <$> keys, h') ∧ length keys = 2.
Proof.
  split; [intros m; reflexivity|].
  destruct (WrappedErrors_in_key_order map_to_list (λ m, Permutation_refl _)
              h_get 1%positive {[ "a" := ELeaf "test0"; "c" := ETree 2 ]})
    as (keys & h' & HW & _ & _ & _ & Hlen & _).
  - by vm_compute.
  - exists keys, h'. split; [exact HW|exact Hlen].
Defined.

(** [TestTree_WrappedErrors]. *)
Example test_WrappedErrors :
  WrappedErrors map_to_list
    {[ 1%positive :=
         mkTree (Some {[ "a" := ELeaf "c"; "b" := ELeaf "a"; "c" := ELeaf "b" ]})
           "" None ]} 1 =
  Ret ([ELeaf "c"; ELeaf "a"; ELeaf "b"],
       {[ 1%positive :=
            mkTree (Some {[ "a" := ELeaf "c"; "b" := ELeaf "a";
                            "c" := ELeaf "b" ]}) "" None ]}).
Proof. by vm_compute. Qed.

(** ** The lazy getters *)

(** X13.  A getter initialises its field once: what it returns is never the
    zero value ([getDelimiter] never returns the empty string, [getErrors]
    returns the map that is then stored in the tree), the field holds the
    returned value afterwards, and a second call returns the same value and
    writes nothing. *)
Theorem getters_initialise_once (h : heap) (t : loc) (h' : heap) :
  (∀ errors, getErrors h t = Ret (errors, h') →
     Errors <$> h' !! t = Some (Some errors) ∧
     getErrors h' t = Ret (errors, h')) ∧
  (∀ d, getDelimiter h t = Ret (d, h') →
     d ≠ "" ∧ Delimiter <$> h' !! t = Some d ∧
     getDelimiter h' t = Ret (d, h')) ∧
  (∀ f, getFormatter h t = Ret (f, h') →
     Formatter_ <$> h' !! t = Some (Some f) ∧
     getFormatter h' t = Ret (f, h')).
Proof.
  split; [|split].
  - intros errors. unfold getErrors.
    destruct (h !! t) as [tr|] eqn:Ht; [|done].
    destruct (Errors tr) as [errors'|] eqn:He; intros [= <- <-].
    + rewrite Ht. simpl. by rewrite He.
    + by rewrite lookup_insert_eq.
  - intros d. unfold getDelimiter.
    destruct (h !! t) as [tr|] eqn:Ht; [|done].
    destruct (decide (Delimiter tr = "")) as [Hd|Hd]; intros [= <- <-].
    + by rewrite lookup_insert_eq.
    + rewrite Ht. simpl. by rewrite decide_False.
  - intros f. unfold getFormatter.
    destruct (h !! t) as [tr|] eqn:Ht; [|done].
    destruct (Formatter_ tr) as [f'|] eqn:Hf; intros [= <- <-].
    + rewrite Ht. simpl. by rewrite Hf.
    + by rewrite lookup_insert_eq.
Qed.

Lemma getters_initialise_once_witness :
  "." ≠ "" ∧ getDelimiter h_get 1 = Ret (".", h_get).
Proof.
  destruct (getters_initialise_once h_get 1%positive h_get) as (_ & Hd & _).
  destruct (Hd ".") as (Hne & _ & Hagain); [by vm_compute|].
  split; [exact Hne|exact Hagain].
Defined.

(** ** What a formatter is given, and the message of a tree *)

(** X14.  No value of the map that [Flatten] returns is a tree, so a
    formatter is never handed a nested tree; and when no entry of the store
    holds the nil error, every value is a leaf error. *)
Theorem Flatten_values_are_leaves
    (range : gmap string error → list (string * error))
    (range_perm : ∀ m, range m ≡ₚ map_to_list m)
    (h : heap) (err : error) (m : gmap string error) (h' : heap) :
  Flatten range h err = Ret (Some m, h') →
  (∀ K e, m !! K = Some e → GetTree e = None) ∧
  (no_nil h → ∀ K e, m !! K = Some e → ∃ msg, e = ELeaf msg).
Proof.
  intros HF. destruct err as [| |p]; try done.
  apply Flatten_Ret in HF as (d & m' & [= <-] & _ & Hm & _).
  split.
  - intros K e HK. by eapply (flat_leaves range range_perm).
  - intros Hnn K e HK.
    apply (flat_spec range range_perm) in Hm as [Hs _].
    destruct (Hs K e HK) as (path & Hpath & _). clear -Hpath Hnn.
    induction Hpath as [v t errors k e Hv Ht Hk He|]; [|done].
    destruct e as [|msg|c]; [|eauto|done].
    by destruct (Hnn t errors k Ht).
Qed.

Lemma Flatten_values_are_leaves_witness :
  (∀ m : gmap string error, map_to_list m ≡ₚ map_to_list m) ∧
  ∀ K e, ({[ "a" := ELeaf "test0" ]} : gmap string error) !! K = Some e →
    GetTree e = None.
Proof.
  split; [intros m; reflexivity|].
  apply (Flatten_values_are_leaves map_to_list (λ m, Permutation_refl _)
           h_self (ETree 1) _ h_self).
  by vm_compute.
Defined.

Section TreeError.

Context (range : gmap string error → list (string * error)).
Context (tree_Error : loc → outcome string).
Hypothesis range_perm : ∀ m, range m ≡ₚ map_to_list m.

Lemma leaves_fmap (m : gmap string error) :
  (∀ K e, m !! K = Some e → ∃ msg, e = ELeaf msg) →
  ∃ msgs : gmap string string, m = ELeaf <$> msgs.
Proof.
  intros Hl.
  exists (omap (λ e, match e with ELeaf msg => Some msg | _ => None end) m).
  apply map_eq. intros K. rewrite lookup_fmap, lookup_omap.
  destruct (m !! K) as [e|] eqn:HK; [|done].
  by destruct (Hl K e HK) as [msg ->].
Qed.

Lemma call_Formatter_leaves f (m : gmap string error) :
  (∀ K e, m !! K = Some e → ∃ msg, e = ELeaf msg) →
  ∃ s, call_Formatter range tree_Error f m = Ret s.
Proof.
  intros Hl. destruct f as [|f]; simpl; [|eauto].
  destruct (leaves_fmap m Hl) as [msgs ->].
  destruct (SimpleFormatter_leaves range tree_Error range_perm msgs)
    as (keys & _ & _ & _ & ->). eauto.
Qed.

Lemma getFormatter_errs h t f h1 :
  getFormatter h t = Ret (f, h1) →
  (∀ q, errs h1 q = errs h q) ∧ (∀ q, is_Some (h1 !! q) ↔ is_Some (h !! q)).
Proof.
  unfold getFormatter. destruct (h !! t) as [tr|] eqn:Ht; [|done].
  destruct (Formatter_ tr); intros [= <- <-]; [done|]. split.
  - intros q. unfold errs. destruct (decide (t = q)) as [<-|Hne].
    + by rewrite lookup_insert_eq, Ht.
    + by rewrite lookup_insert_ne.
  - intros q. destruct (decide (t = q)) as [<-|Hne].
    + rewrite lookup_insert_eq, Ht. split; eauto.
    + by rewrite lookup_insert_ne.
Qed.

Lemma Tree_Error_returns h t :
  closed h → no_nil h → is_Some (h !! t) →
  ∃ s h', Tree_Error range tree_Error h (Some t) = Ret (s, h').
Proof.
  intros Hcl Hnn Ht. rewrite Tree_Error_Flatten.
  destruct (getFormatter h t) as [[f h1]| |] eqn:Hgf.
  - destruct (getFormatter_errs h t f h1 Hgf) as [He Hl].
    assert (closed h1) as Hcl1.
    { intros p errors k c Hp Hk. apply Hl. rewrite He in Hp. by eapply Hcl. }
    assert (no_nil h1) as Hnn1.
    { intros p errors k Hp. rewrite He in Hp. by eapply Hnn. }
    destruct (Flatten_closed range range_perm h1 t Hcl1) as (m & h2 & HF).
    { by apply Hl. }
    osimpl. cbn [fst snd]. rewrite HF. osimpl. cbn [fst snd].
    destruct (call_Formatter_leaves f m) as [s ->]; [|osimpl; eauto].
    by apply (Flatten_values_are_leaves range range_perm h1 (ETree t) m h2).
  - unfold getFormatter in Hgf. destruct Ht as [tr Ht]. rewrite Ht in Hgf.
    by destruct (Formatter_ tr).
  - unfold getFormatter in Hgf. destruct (h !! t) as [tr|]; [|done].
    by destruct (Formatter_ tr).
Qed.

End TreeError.

(** X15.  [Error] on the nil pointer is the empty string.  On a tree of a
    store without dangling pointers and without stored nil errors, [Error]
    returns a message and does not panic, with the simple formatter as with
    a formatter of the caller, also when the tree contains itself. *)
Theorem Tree_Error_total
    (range : gmap string error → list (string * error))
    (tree_Error : loc → outcome string)
    (range_perm : ∀ m, range m ≡ₚ map_to_list m) (h : heap) :
  Tree_Error range tree_Error h None = Ret ("", h) ∧
  (∀ t, closed h → no_nil h → is_Some (h !! t) →
     ∃ s h', Tree_Error range tree_Error h (Some t) = Ret (s, h')).
Proof.
  split; [done|]. intros t. by apply Tree_Error_returns.
Qed.

Lemma h_self_no_nil : no_nil h_self.
Proof.
  intros p errors k Hp Hk. unfold errs, h_self in Hp.
  destruct (decide (p = 1%positive)) as [->|Hne].
  - rewrite lookup_singleton_eq in Hp. injection Hp as <-. simpl in Hk.
    apply lookup_insert_Some in Hk as [[_ [=]]|[_ Hk]].
    by apply lookup_singleton_Some in Hk as [_ [=]].
  - by rewrite lookup_singleton_ne in Hp.
Qed.

Lemma Tree_Error_total_witness :
  (∀ m : gmap string error, map_to_list m ≡ₚ map_to_list m) ∧
  ∃ s h', Tree_Error map_to_list (λ _, OutOfFuel) h_self (Some 1%positive) =
    Ret (s, h').
Proof.
  split; [intros m; reflexivity|].
  apply (Tree_Error_total map_to_list (λ _, OutOfFuel)
           (λ m, Permutation_refl _) h_self).
  - exact h_self_closed.
  - exact h_self_no_nil.
  - unfold h_self. rewrite lookup_singleton_eq. eauto.
Defined.

Lemma singleton_keys (keys : list string) key :
  NoDup keys → (∀ k, k ∈ keys ↔ k = key) → keys = [key].
Proof.
  intros Hnd Hin. destruct keys as [|k keys].
  - pose proof (proj2 (Hin key) eq_refl) as Hk. by apply elem_of_nil in Hk.
  - assert (k = key) as -> by (apply Hin; left).
    apply NoDup_cons in Hnd as [Hk Hnd]. destruct keys as [|k' keys]; [done|].
    assert (k' = key) as -> by (apply Hin; right; left).
    destruct Hk. left.
Qed.

(** X16.  The message of a tree made by [Set] or [Add] from the nil parent
    and one leaf is ["1 error occurred:"], an empty line and the line of
    that leaf, whatever the key and the message are. *)
Theorem Error_of_single_leaf
    (range : gmap string error → list (string * error))
    (tree_Error : loc → outcome string)
    (range_perm : ∀ m, range m ≡ₚ map_to_list m)
    (h : heap) (key msg : string) :
  ∃ p h',
    Set_ h ENil key (ELeaf msg) = Ret (ETree p, h') ∧
    Add h ENil key (ELeaf msg) = Ret (ETree p, h') ∧
    Tree_Error range tree_Error h' (Some p) =
      Ret ("1 error occurred:" +:+ newline +:+ newline +:+
           "* " +:+ key +:+ ": " +:+ msg, h').
Proof.
  destruct (Set_creates_tree h key (ELeaf msg)) as
    (p & h' & HS & HA & _ & Hp & _ & HF); [done|].
  exists p, h'. split; [done|]. split; [done|].
  rewrite Tree_Error_Flatten. unfold getFormatter. rewrite Hp. osimpl.
  cbn [Formatter_ fst snd]. osimpl. cbn [fst snd].
  rewrite (HF range range_perm eq_refl). osimpl. cbn [fst snd call_Formatter].
  rewrite <- (map_fmap_singleton ELeaf key msg).
  destruct (SimpleFormatter_leaves range tree_Error range_perm {[ key := msg ]})
    as (keys & _ & Hnd & Hin & ->).
  rewrite (singleton_keys keys key Hnd).
  - osimpl. rewrite map_size_singleton. simpl.
    unfold entry_line. by rewrite lookup_singleton_eq.
  - intros k. rewrite Hin. split.
    + by intros [? [<- _]%lookup_singleton_Some].
    + intros ->. rewrite lookup_singleton_eq. eauto.
Qed.

Lemma Error_of_single_leaf_witness :
  (∀ m : gmap string error, map_to_list m ≡ₚ map_to_list m) ∧
  ∃ p h', Tree_Error map_to_list (λ _, OutOfFuel) h' (Some p) =
    Ret ("1 error occurred:" +:+ newline +:+ newline +:+
         "* " +:+ "test" +:+ ": " +:+ "test error", h').
Proof.
  split; [intros m; reflexivity|].
  destruct (Error_of_single_leaf map_to_list (λ _, OutOfFuel)
              (λ m, Permutation_refl _) ∅ "test" "test error")
    as (p & h' & _ & _ & HE).
  exists p, h'. exact HE.
Defined.

(** ** Repeating a traversal *)

Section Repeat.

Context (range : gmap string error → list (string * error)).




End Repeat.



(** ** The configuration validation *)

Lemma Add_nil h key err :
  Add h ENil key err =
    if decide (err = ENil) then Ret (ENil, h)
    else Ret (ETree (fresh (dom h)),
              <[fresh (dom h) :=
                  mkTree (Some {[ key := err ]}) DefaultDelimiter
                    (Some FSimple)]> h).
Proof.
  unfold Add. cbn [GetTree]. osimpl.
  destruct (decide (err = ENil)) as [->|Herr]; [done|]. by rewrite set_new.
Qed.

Lemma Add_tree_absent h p tr key err :
  h !! p = Some tr → default ∅ (Errors tr) !! key = None → err ≠ ENil →
  Add h (ETree p) key err = Ret (ETree p, store_entry h p key err).
Proof.
  intros Hp Hk Herr.
  rewrite (proj2 (Add_like_Set h key) p (default ∅ (Errors tr)) err);
    [by apply (Set_tree h p tr)| |done..].
  unfold errs. by rewrite Hp.
Qed.

Lemma Add_tree_nil h p tr errors key :
  h !! p = Some tr → Errors tr = Some errors → errors !! key = None →
  Add h (ETree p) key ENil = Ret (ETree p, h).
Proof.
  intros Hp He Hk. unfold Add. cbn [GetTree].
  rewrite (getErrors_initialised h p tr errors) by done. osimpl.
  by rewrite Hk.
Qed.

Lemma fresh_preserved (h : heap) q tr x :
  h !! q = Some tr → <[fresh (dom h) := x]> h !! q = Some tr.
Proof.
  intros Hq. rewrite lookup_insert_ne; [done|].
  intros <-. pose proof (is_fresh (dom h)) as Hf.
  apply Hf, elem_of_dom. eauto.
Qed.

Section ValidationProperties.

Context (SplitHostPort_fails : string → bool).
Context (Stat : string → option bool).

Lemma NetworkConfiguration_Validate_spec h c :
  ∃ r h',
    NetworkConfiguration_Validate SplitHostPort_fails h c = Ret (r, h') ∧
    (r = ENil ↔ network_valid SplitHostPort_fails c) ∧
    (r = ENil → h' = h) ∧
    (∀ q tr, h !! q = Some tr → h' !! q = Some tr).
Proof.
  unfold NetworkConfiguration_Validate, network_valid.
  assert (∀ e, e ≠ ENil → ∃ r h',
            (if bool_decide (MaxClients c < 1)%N
             then Add (<[fresh (dom h) :=
                          mkTree (Some {[ "ListenAddress" := e ]})
                            DefaultDelimiter (Some FSimple)]> h)
                      (ETree (fresh (dom h))) "MaxClients"
                      (ELeaf "Must be at least 1")
             else Ret (ETree (fresh (dom h)),
                       <[fresh (dom h) :=
                           mkTree (Some {[ "ListenAddress" := e ]})
                             DefaultDelimiter (Some FSimple)]> h)) =
              Ret (r, h') ∧ r ≠ ENil ∧
            (∀ q tr, h !! q = Some tr → h' !! q = Some tr)) as Hfirst.
  { intros e He. case_bool_decide.
    - erewrite Add_tree_absent; [|apply lookup_insert_eq|done..].
      eexists _, _. split; [done|]. split; [done|].
      intros q tr Hq. rewrite store_entry_other.
      + by apply fresh_preserved.
      + intros ->. pose proof (is_fresh (dom h)) as Hf.
        apply Hf, elem_of_dom. eauto.
    - eexists _, _. split; [done|]. split; [done|].
      intros q tr Hq. by apply fresh_preserved. }
  destruct (decide (ListenAddress c = "")) as [HLA|HLA].
  - rewrite (bool_decide_eq_true_2 _ HLA), Add_nil. simpl.
    destruct (Hfirst ErrOptionMissing) as (r & h' & -> & Hr & Hpres); [done|].
    exists r, h'. split; [done|]. split; [|split; [done|done]].
    split; [done|]. by intros [? _].
  - rewrite (bool_decide_eq_false_2 _ HLA).
    destruct (SplitHostPort_fails (ListenAddress c)) eqn:Hsplit.
    + rewrite Add_nil. simpl.
      destruct (Hfirst (ELeaf "Must be in host:port format"))
        as (r & h' & -> & Hr & Hpres); [done|].
      exists r, h'. split; [done|]. split; [|split; [done|done]].
      split; [done|]. by intros (_ & [=] & _).
    + simpl. destruct (decide (MaxClients c < 1)%N) as [HMC|HMC].
      * rewrite (bool_decide_eq_true_2 _ HMC), Add_nil. simpl.
        eexists _, _. split; [done|]. split; [|split; [done|]].
        -- split; [done|]. intros (_ & _ & ?). lia.
        -- intros q tr Hq. by apply fresh_preserved.
      * rewrite (bool_decide_eq_false_2 _ HMC).
        exists ENil, h. split; [done|]. split; [|done].
        split; [|done]. intros _. split; [done|]. split; [done|]. lia.
Qed.

Lemma StorageConfiguration_Validate_spec h c :
  ∃ r h',
    StorageConfiguration_Validate Stat h c = Ret (r, h') ∧
    (r = ENil ↔ storage_valid Stat c) ∧
    (r = ENil → h' = h) ∧
    (∀ q tr, h !! q = Some tr → h' !! q = Some tr).
Proof.
  unfold StorageConfiguration_Validate, storage_valid.
  assert (∀ e, e ≠ ENil → ∃ r h',
            Add h ENil "DataDirectory" e = Ret (r, h') ∧ r ≠ ENil ∧
            (∀ q tr, h !! q = Some tr → h' !! q = Some tr)) as Hadd.
  { intros e He. rewrite Add_nil, decide_False by done.
    eexists _, _. split; [done|]. split; [done|].
    intros q tr Hq. by apply fresh_preserved. }
  destruct (decide (DataDirectory c = "")) as [HDD|HDD].
  - rewrite (bool_decide_eq_true_2 _ HDD).
    destruct (Hadd ErrOptionMissing) as (r & h' & -> & Hr & Hpres); [done|].
    exists r, h'. split; [done|]. split; [|done].
    split; [done|]. by intros [? _].
  - rewrite (bool_decide_eq_false_2 _ HDD).
    destruct (Stat (DataDirectory c)) as [[|]|] eqn:Hstat; simpl.
    + exists ENil, h. split; [done|]. split; [|done]. done.
    + destruct (Hadd (ELeaf "Not a directory")) as (r & h' & -> & Hr & Hpres);
        [done|].
      exists r, h'. split; [done|]. split; [|done].
      split; [done|]. by intros [_ [=]].
    + destruct (Hadd (ELeaf "Directory does not exist"))
        as (r & h' & -> & Hr & Hpres); [done|].
      exists r, h'. split; [done|]. split; [|done].
      split; [done|]. by intros [_ [=]].
Qed.

End ValidationProperties.

(** X18.  [Configuration.Validate] of the example never panics: no key is
    added twice to a tree.  It returns nil exactly when the listen address is
    present and splits into host and port, at least one client is allowed,
    and the data directory is present and is a directory; in that case the
    store is left as it was, and otherwise the result is a tree. *)
Theorem Configuration_Validate_nil_iff_valid
    (SplitHostPort_fails : string → bool) (Stat : string → option bool)
    (h : heap) (c : Configuration) :
  ∃ r h',
    Configuration_Validate SplitHostPort_fails Stat h c = Ret (r, h') ∧
    (r = ENil ↔
       network_valid SplitHostPort_fails (Network c) ∧
       storage_valid Stat (Storage c)) ∧
    (r = ENil → h' = h) ∧
    (r ≠ ENil → ∃ p, r = ETree p ∧ is_Some (h' !! p) ∧ h !! p = None).
Proof.
  unfold Configuration_Validate.
  destruct (NetworkConfiguration_Validate_spec SplitHostPort_fails h (Network c))
    as (nErr & h1 & -> & HnV & Hn1 & Hnpres).
  osimpl. rewrite Add_nil.
  destruct (decide (nErr = ENil)) as [->|HnErr]; osimpl.
  - rewrite (Hn1 eq_refl).
    destruct (StorageConfiguration_Validate_spec Stat h (Storage c))
      as (sErr & h3 & -> & HsV & Hs3 & Hspres).
    osimpl. rewrite Add_nil.
    destruct (decide (sErr = ENil)) as [->|HsErr].
    + exists ENil, h3. split; [done|]. split; [|split; [by auto|done]].
      split; [|done]. intros _. split; [by apply HnV|by apply HsV].
    + eexists _, _. split; [done|]. split; [|split; [done|]].
      * split; [done|]. intros [_ Hs]. by apply HsV in Hs.
      * intros _. eexists. split; [done|].
        rewrite lookup_insert_eq. split; [eauto|].
        destruct (h !! fresh (dom h3)) as [tr|] eqn:Hq; [|done].
        apply Hspres in Hq. pose proof (is_fresh (dom h3)) as Hf.
        destruct Hf. apply elem_of_dom. eauto.
  - set (top := mkTree (Some {[ "Network" := nErr ]}) DefaultDelimiter
                  (Some FSimple)).
    destruct (StorageConfiguration_Validate_spec Stat
                (<[fresh (dom h1) := top]> h1) (Storage c))
      as (sErr & h3 & -> & HsV & Hs3 & Hspres).
    osimpl.
    assert (h3 !! fresh (dom h1) = Some top) as Htop.
    { apply Hspres, lookup_insert_eq. }
    assert (h !! fresh (dom h1) = None) as Hfresh.
    { destruct (h !! fresh (dom h1)) as [tr|] eqn:Hq; [|done].
      apply Hnpres in Hq. pose proof (is_fresh (dom h1)) as Hf.
      destruct Hf. apply elem_of_dom. eauto. }
    destruct (decide (sErr = ENil)) as [->|HsErr].
    + rewrite (Add_tree_nil h3 _ top {[ "Network" := nErr ]}) by done.
      eexists _, _. split; [done|]. split; [|split; [done|]].
      * split; [done|]. intros [Hn _]. by apply HnV in Hn.
      * intros _. eexists. split; [done|]. split; [eauto|done].
    + rewrite (Add_tree_absent h3 _ top) by done.
      eexists _, _. split; [done|]. split; [|split; [done|]].
      * split; [done|]. intros [Hn _]. by apply HnV in Hn.
      * intros _. eexists. split; [done|]. split; [|done].
        rewrite (store_entry_lookup _ _ top) by done. eauto.
Qed.

(** The three invalid configurations of [Example], from the empty store. *)
Example test_Configuration_Validate :
  let message (SplitHostPort_fails : string → bool)
        (Stat : string → option bool) (c : Configuration) :=
    '(err, h) ← Configuration_Validate SplitHostPort_fails Stat ∅ c;
    '(msg, _) ← Tree_Error map_to_list (λ _, OutOfFuel) h (GetTree err);
    Ret msg in
  message (λ _, true) (λ _, None)
    (mkConfiguration (mkNetworkConfiguration "" 0) (mkStorageConfiguration "")) =
    Ret ("3 errors occurred:" +:+ newline +:+ newline +:+
         "* Network:ListenAddress: Configuration option is missing" +:+ newline +:+
         "* Network:MaxClients: Must be at least 1" +:+ newline +:+
         "* Storage:DataDirectory: Configuration option is missing") ∧
  message (λ _, true) (λ _, None)
    (mkConfiguration (mkNetworkConfiguration "[[:8080" 1)
       (mkStorageConfiguration "/non-existing")) =
    Ret ("2 errors occurred:" +:+ newline +:+ newline +:+
         "* Network:ListenAddress: Must be in host:port format" +:+ newline +:+
         "* Storage:DataDirectory: Directory does not exist") ∧
  message (λ _, false) (λ _, Some false)
    (mkConfiguration (mkNetworkConfiguration "0.0.0.0:8080" 1)
       (mkStorageConfiguration "/tmp/file")) =
    Ret ("1 error occurred:" +:+ newline +:+ newline +:+
         "* Storage:DataDirectory: Not a directory") ∧
  Configuration_Validate (λ _, false) (λ _, Some true) ∅
    (mkConfiguration (mkNetworkConfiguration "0.0.0.0:8080" 1)
       (mkStorageConfiguration "/tmp/dir")) = Ret (ENil, ∅).
Proof. repeat split; by vm_compute. Qed.

(** ** From the flattened map back to the tree *)

Lemma leaf_at_resolves E v t p e :
  leaf_at E v t p e → ∃ key path, p = key :: path ∧ resolves E t key path e [].
Proof.
  induction 1 as [v t errors k e Hv Ht Hk He
                 |v t errors k c p e Hv Ht Hk _ (key & path & -> & IH)].
  - exists k, []. split; [done|]. by eapply resolves_here.
  - exists k, (key :: path). split; [done|]. by eapply resolves_step.
Qed.

(** X19.  Every entry of the map that [Flatten] returns can be read back
    with [Get]: its full key is a key and a path, joined by the delimiter of
    the top-level tree, and [Get] with that key and path returns the value
    of the entry. *)
Theorem Flatten_entry_read_by_Get
    (range : gmap string error → list (string * error))
    (range_perm : ∀ m, range m ≡ₚ map_to_list m)
    (h : heap) (t : loc) (m : gmap string error) (h' : heap)
    (K : string) (e : error) :
  Flatten range h (ETree t) = Ret (Some m, h') →
  m !! K = Some e →
  ∃ d key path h'',
    delim h t = Some d ∧ K = join d (key :: path) ∧
    Get h (ETree t) key path = Ret (e, h'').
Proof.
  intros (d & m' & [= <-] & Hd & Hm & _)%Flatten_Ret HK.
  apply (flat_spec range range_perm) in Hm as [Hs _].
  destruct (Hs K e HK) as (p & (key & path & -> & Hres)%leaf_at_resolves & ->).
  destruct (get_exact_found _ _ _ _ _ Hres h (λ _, eq_refl)) as (h'' & Hg & _).
  by exists d, key, path, h''.
Qed.

Lemma Flatten_entry_read_by_Get_witness :
  (∀ m : gmap string error, map_to_list m ≡ₚ map_to_list m) ∧
  ∃ d key path h'',
    delim h_nested 1 = Some d ∧ "b.ba" = join d (key :: path) ∧
    Get h_nested (ETree 1) key path = Ret (ELeaf "test1", h'').
Proof.
  split; [intros m; reflexivity|].
  eapply (Flatten_entry_read_by_Get map_to_list (λ m, Permutation_refl _)
            h_nested 1).
  - by vm_compute.
  - by vm_compute.
Defined.
